(** * Deterministic state machines of the notebook [Hess.ipynb]

    A shallow embedding of the [StateMachine] class, of the acceptance check
    [check] and of the path enumerator [sample] / [sample2], with the
    properties the specification states about them.

    Conventions of the embedding.
    - A Python [str] is a [string]; [string[i]] is the one-character string
      [String c EmptyString], and [a + b] on strings is [a +:+ b].
    - [self.states] is only ever looked up and assigned by key, so it is a
      [gmap]; the inner dictionaries are iterated ([for edge in
      sm.out_edges()]), so they are association lists in insertion order
      (the order a Python 3.7+ [dict] iterates in).
    - [self.terminal_states] is a [gset].
    - Methods mutate the object they are called on and may raise: they live
      in a state-and-exception monad over the [StateMachine] record.  The
      machine a computation leaves behind is returned also when it raises.
    - Each run of a method on a record value is a run on an object of its
      own: the table is never assigned after construction, so that a shallow
      copy ([copy.copy]) and a value behave alike. *)

From stdpp Require Import gmap strings list.

(** ** Exceptions and results *)

Inductive exn : Type :=
  | DFAException          (* raise Exception("This StateMachine only supports DFAs, ...") *)
  | KeyError (key : string).  (* a failed dictionary subscript d[key] *)

Inductive result (A : Type) : Type :=
  | Ok (a : A)
  | Raise (e : exn).
Arguments Ok {A} a.
Arguments Raise {A} e.

Definition is_ok {A} (r : result A) : bool :=
  match r with Ok _ => true | Raise _ => false end.

(** ** Insertion-ordered dictionaries from symbols to states *)

(** The lists the constructor builds have pairwise distinct keys
    ([keys_out_of_NoDup]); the lemmas on methods hold of all lists, [get]
    reading the first binding of a key. *)
Module Dict.

Definition t : Type := list (string * string).

(** [dict()] *)
Definition empty : t := [].

(** [d[k]], [None] standing for the KeyError. *)
Fixpoint get (k : string) (d : t) : option string :=
  match d with
  | [] => None
  | (k', v) :: rest => if decide (k = k') then Some v else get k rest
  end.

(** [k in d] *)
Definition mem (k : string) (d : t) : bool :=
  match get k d with Some _ => true | None => false end.

(** [d[k] = v]: an existing key keeps its position, a new one goes last. *)
Fixpoint put (k v : string) (d : t) : t :=
  match d with
  | [] => [(k, v)]
  | (k', v') :: rest =>
      if decide (k = k') then (k, v) :: rest else (k', v') :: put k v rest
  end.

(** The keys, in iteration order. *)
Definition keys (d : t) : list string := d.*1.

End Dict.

(** ** The class *)

Record StateMachine : Type := mkStateMachine {
  states : gmap string Dict.t;
  state : string;
  terminal_states : gset string
}.

(** [if s not in self.states: self.states[s] = dict()] *)
Definition ensure_state (s : string) (tbl : gmap string Dict.t) : gmap string Dict.t :=
  match tbl !! s with
  | Some _ => tbl
  | None => <[s := Dict.empty]> tbl
  end.

(** The body of the [for (src, symbol, dest) in edges] loop of [__init__]. *)
Definition add_edge (tbl : gmap string Dict.t) (e : string * string * string)
  : result (gmap string Dict.t) :=
  let '(src, symbol, dest) := e in
  let tbl := ensure_state src tbl in
  let tbl := ensure_state dest tbl in
  match tbl !! src with
  | None => Raise (KeyError src)
  | Some out =>
      if Dict.mem symbol out then Raise DFAException
      else Ok (<[src := Dict.put symbol dest out]> tbl)
  end.

Fixpoint add_edges (tbl : gmap string Dict.t) (edges : list (string * string * string))
  : result (gmap string Dict.t) :=
  match edges with
  | [] => Ok tbl
  | e :: rest =>
      match add_edge tbl e with
      | Ok tbl' => add_edges tbl' rest
      | Raise x => Raise x
      end
  end.

(** [StateMachine(edges, init_state, terminals)] *)
Definition StateMachine_init (edges : list (string * string * string))
    (init_state : string) (terminals : list string) : result StateMachine :=
  match add_edges ∅ edges with
  | Ok tbl => Ok (mkStateMachine tbl init_state (list_to_set terminals))
  | Raise x => Raise x
  end.

(** ** Methods: a state-and-exception monad over the object *)

Definition M (A : Type) : Type := StateMachine → result A * StateMachine.

Definition ret {A} (a : A) : M A := λ sm, (Ok a, sm).
Definition raise {A} (e : exn) : M A := λ sm, (Raise e, sm).
Definition bind {A B} (m : M A) (k : A → M B) : M B :=
  λ sm, match m sm with
        | (Ok a, sm') => k a sm'
        | (Raise e, sm') => (Raise e, sm')
        end.

Notation "'let*' x := m 'in' k" := (bind m (λ x, k))
  (at level 10, x name, m at level 100, k at level 200).

(** [sm.state] read and [sm.state = s] *)
Definition get_state : M string := λ sm, (Ok (state sm), sm).
Definition with_state (sm : StateMachine) (s : string) : StateMachine :=
  mkStateMachine (states sm) s (terminal_states sm).
Definition set_state (s : string) : M unit := λ sm, (Ok tt, with_state sm s).

(** [return self.states[self.state]] *)
Definition out_edges : M Dict.t :=
  λ sm, match states sm !! state sm with
        | Some out => (Ok out, sm)
        | None => (Raise (KeyError (state sm)), sm)
        end.

(** [return self.state in self.terminal_states] *)
Definition is_terminal : M bool :=
  λ sm, (Ok (bool_decide (state sm ∈ terminal_states sm)), sm).

(** [return len(self.out_edges()) == 0] *)
Definition is_stuck : M bool :=
  let* out := out_edges in ret (bool_decide (length out = 0)).

(** [self.state = self.out_edges()[symbol]]: the right-hand side is
    evaluated first, so a failed subscript leaves [self.state] as it was. *)
Definition advance (symbol : string) : M unit :=
  let* out := out_edges in
  match Dict.get symbol out with
  | Some dest => set_state dest
  | None => raise (KeyError symbol)
  end.

(** ** Assignment 1: [check] *)

(** The loop [for i in range(0, len(string))] runs over the characters of
    [string]; [return False] leaves it at the first symbol without an
    out-edge, and the terminal test follows the last character. *)
Fixpoint check (string : string) : M bool :=
  match string with
  | EmptyString =>
      let* t := is_terminal in if t then ret true else ret false
  | String c rest =>
      let string_i := String c EmptyString in
      let* out := out_edges in
      if Dict.mem string_i out then let* _ := advance string_i in check rest
      else ret false
  end.

(** ** Assignment 2: [sample] and [sample2] *)

(** [for x in xs: body], with the accumulator [result] threaded through. *)
Fixpoint for_each {A R} (xs : list A) (body : A → R → M R) (result : R) : M R :=
  match xs with
  | [] => ret result
  | x :: rest => let* r := body x result in for_each rest body r
  end.

(** [length] is a natural number: the callers pass [range(0, 9)]. *)
Fixpoint sample2 (length : nat) (sofar : string) : M (list string) :=
  match length with
  | 0 =>
      let* t := is_terminal in if t then ret [sofar] else ret []
  | S length_1 =>
      let* saved := get_state in
      let* out := out_edges in
      for_each (Dict.keys out)
        (λ edge result,
           let* _ := advance edge in
           let* paths := sample2 length_1 (sofar +:+ edge) in
           let* _ := set_state saved in
           ret (result ++ paths)%list)
        []
  end.

Definition sample (length : nat) : M (list string) := sample2 length "".

(** The body of the [for edge in sm.out_edges()] loop of [sample2], named
    so that lemmas can speak about one iteration; [sample2_S] below checks
    that it is the body [sample2] runs. *)
Definition sample2_branch (length_1 : nat) (sofar saved : string)
    (edge : string) (result : list string) : M (list string) :=
  let* _ := advance edge in
  let* paths := sample2 length_1 (sofar +:+ edge) in
  let* _ := set_state saved in
  ret (result ++ paths)%list.

(** ** The machines of the notebook *)

Definition ab_a_ : result StateMachine :=
  StateMachine_init
    [("s1", "a", "s2"); ("s2", "b", "s3"); ("s3", "a", "s3")] "s1" ["s3"].

Definition test2 : result StateMachine :=
  StateMachine_init
    [("s1", "x", "s2"); ("s2", "x", "s2"); ("s2", "@", "s3"); ("s3", "x", "s4");
     ("s4", ".", "s5"); ("s4", "x", "s4"); ("s5", "x", "s6");
     ("s6", "x", "s6"); ("s6", ".", "s5")] "s1" ["s6"].

(** Further constructor calls the properties are tried on. *)

(** One edge listed twice. *)
Definition twice_the_same_edge : list (string * string * string) :=
  [("s1", "a", "s2"); ("s1", "a", "s2")].

(** A symbol of two characters. *)
Definition two_character_symbol : result StateMachine :=
  StateMachine_init [("s1", "ab", "s2")] "s1" ["s2"].

(** An initial state that appears in no edge. *)
Definition no_edges : result StateMachine :=
  StateMachine_init [] "s1" ["s1"].
Definition initial_state_apart : result StateMachine :=
  StateMachine_init [("s2", "a", "s3")] "s1" ["s3"].

(** A table written down directly. *)
Definition one_edge : StateMachine :=
  mkStateMachine {[ "s1" := [("a", "s2")] ]} "s1" ∅.

(** Run a method on the machine a constructor call produced. *)
Definition on {A} (r : result StateMachine) (m : M A) : result A :=
  match r with
  | Ok sm => fst (m sm)
  | Raise e => Raise e
  end.

(** ** Reference notions the properties are stated with *)

(** The (source, symbol) pair an edge registers. *)
Definition edge_key (e : string * string * string) : string * string :=
  (e.1.1, e.1.2).

(** Two edges of the list register the same (source, symbol) pair with
    different destinations. *)
Definition conflicting_destinations (edges : list (string * string * string)) : Prop :=
  ∃ e1 e2, e1 ∈ edges ∧ e2 ∈ edges ∧ edge_key e1 = edge_key e2 ∧ e1.2 ≠ e2.2.

(** Two edges, at different positions of the list, register the same
    (source, symbol) pair. *)
Definition repeated_key (edges : list (string * string * string)) : Prop :=
  ∃ i j e1 e2, i ≠ j ∧ edges !! i = Some e1 ∧ edges !! j = Some e2 ∧
               edge_key e1 = edge_key e2.

(** The out-edges an edge list declares for [s], in declaration order. *)
Definition out_of (s : string) (edges : list (string * string * string)) : Dict.t :=
  omap (λ '(src, symbol, dest),
          if decide (src = s) then Some (symbol, dest) else None) edges.

(** The states an edge list mentions, as a source or as a destination. *)
Definition mentioned (edges : list (string * string * string)) : list string :=
  edges ≫= λ '(src, _, dest), [src; dest].

(** The table [tbl] holds exactly what the edge list declares: a key for
    every mentioned state, bound to its out-edges in declaration order. *)
Definition declares (tbl : gmap string Dict.t)
    (edges : list (string * string * string)) : Prop :=
  ∀ s, tbl !! s =
       if decide (s ∈ mentioned edges) then Some (out_of s edges) else None.

(** The transition function a table denotes. *)
Definition delta (tbl : gmap string Dict.t) (st symbol : string) : option string :=
  match tbl !! st with
  | Some out => Dict.get symbol out
  | None => None
  end.

(** The state a string leads to when every character is a valid transition. *)
Fixpoint run (tbl : gmap string Dict.t) (st : string) (s : string) : option string :=
  match s with
  | EmptyString => Some st
  | String c rest =>
      match delta tbl st (String c EmptyString) with
      | Some dest => run tbl dest rest
      | None => None
      end
  end.

(** The state the longest valid prefix of a string leads to. *)
Fixpoint walk (tbl : gmap string Dict.t) (st : string) (s : string) : string :=
  match s with
  | EmptyString => st
  | String c rest =>
      match delta tbl st (String c EmptyString) with
      | Some dest => walk tbl dest rest
      | None => st
      end
  end.

(** Every destination of the table is itself a key of the table. *)
Definition closed (tbl : gmap string Dict.t) : Prop :=
  ∀ st symbol dest, delta tbl st symbol = Some dest → is_Some (tbl !! dest).

(** Every symbol of the table is a single character. *)
Definition single_char_symbols (tbl : gmap string Dict.t) : Prop :=
  map_Forall (λ _ out, Forall (λ symbol, String.length symbol = 1) (Dict.keys out))
             tbl.

(** The state a sequence of symbols leads to when [advance] accepts each. *)
Fixpoint run_symbols (tbl : gmap string Dict.t) (st : string)
    (symbols : list string) : option string :=
  match symbols with
  | [] => Some st
  | symbol :: rest =>
      match delta tbl st symbol with
      | Some dest => run_symbols tbl dest rest
      | None => None
      end
  end.

(** The string a sequence of symbols spells. *)
Definition spell (symbols : list string) : string :=
  foldr String.append "" symbols.

(** [sm.advance(a1); ...; sm.advance(an)]: the valid advances that make a
    state reachable. *)
Fixpoint advance_all (symbols : list string) : M unit :=
  match symbols with
  | [] => ret tt
  | symbol :: rest => let* _ := advance symbol in advance_all rest
  end.

(** The enumerator, called with length [n], hands the machine back as it
    got it whenever it returns. *)
Definition restores (n : nat) : Prop :=
  ∀ sofar sm l sm', sample2 n sofar sm = (Ok l, sm') → sm' = sm.

(** The machine a successful constructor call produced. *)
Definition machine (r : result StateMachine) : StateMachine :=
  match r with
  | Ok sm => sm
  | Raise _ => mkStateMachine ∅ "" ∅
  end.

(** ** The first enumerator of Assignment 2: [recur] and [try_sample] *)

(** [recur] works on two objects: the machine [sm] it is given, and the
    list [works] all its calls share and append to. *)
Definition MW (A : Type) : Type :=
  StateMachine * list string → result A * (StateMachine * list string).

Definition retW {A} (a : A) : MW A := λ st, (Ok a, st).
Definition bindW {A B} (m : MW A) (k : A → MW B) : MW B :=
  λ st, match m st with
        | (Ok a, st') => k a st'
        | (Raise e, st') => (Raise e, st')
        end.

Notation "'let+' x := m 'in' k" := (bindW m (λ x, k))
  (at level 10, x name, m at level 100, k at level 200).

(** A method call on [sm]. *)
Definition on_sm {A} (m : M A) : MW A :=
  λ st, match m st.1 with (r, sm') => (r, (sm', st.2)) end.

(** [works.append(path)] *)
Definition works_append (path : string) : MW unit :=
  λ st, (Ok tt, (st.1, (st.2 ++ [path])%list)).

(** [copy.copy(sm)]: a new object with the attributes of [sm]. *)
Definition copy : MW StateMachine := λ st, (Ok st.1, st).

(** Statements whose machine is the object [o] (here the copy): [works]
    is still the shared list, and what becomes of [o] is not looked at
    afterwards. *)
Definition with_object {A} (o : StateMachine) (m : MW A) : MW A :=
  λ st, match m (o, st.2) with (r, st') => (r, (st.1, st'.2)) end.

(** [for edge in edges: body] *)
Fixpoint for_edges (edges : list string) (body : string → MW unit) : MW unit :=
  match edges with
  | [] => retW tt
  | edge :: rest => let+ _ := body edge in for_edges rest body
  end.

Fixpoint recur (length : nat) (path : string) : MW unit :=
  match length with
  | 0 =>
      let+ t := on_sm is_terminal in
      if t then works_append path else retW tt
  | S length_1 =>
      let+ out := on_sm out_edges in
      for_edges (Dict.keys out)
        (λ edge,
           let+ smCopy := copy in
           with_object smCopy
             (let+ _ := on_sm (advance edge) in
              recur length_1 (path +:+ edge)))
  end.

(** The body of the [for edge in sm.out_edges()] loop of [recur], named
    as [sample2_branch] is; [recur_S] below checks that it is the body
    [recur] runs. *)
Definition recur_branch (length_1 : nat) (path : string) (edge : string) : MW unit :=
  let+ smCopy := copy in
  with_object smCopy
    (let+ _ := on_sm (advance edge) in
     recur length_1 (path +:+ edge)).

(** [works = []; recur(sm, length, "", works); return works] *)
Definition try_sample (length : nat) : M (list string) :=
  λ sm, match recur length "" (sm, []) with
        | (Ok _, (sm', works)) => (Ok works, sm')
        | (Raise e, (sm', _)) => (Raise e, sm')
        end.

(** ** The other machines of the notebook *)

(** "hello", "hey", and "hi" followed by any number of "hi". *)
Definition test1 : result StateMachine :=
  StateMachine_init
    [("s1", "h", "s2"); ("s2", "e", "s3");
     ("s3", "y", "s4");
     ("s3", "l", "s5"); ("s5", "l", "s6"); ("s6", "o", "s7");
     ("s2", "i", "s8"); ("s8", "h", "s9"); ("s9", "i", "s8")]
    "s1" ["s4"; "s7"; "s8"].

(** The ten edges from [src] to [dest] on the digits, in the order the
    notebook lists them. *)
Definition digit_edges (src dest : string) : list (string * string * string) :=
  (λ symbol, (src, symbol, dest))
    <$> ["1"; "2"; "3"; "4"; "5"; "6"; "7"; "8"; "9"; "0"].

(** Phone numbers, three digits, three digits and four digits with hyphens
    in between. *)
Definition test3 : result StateMachine :=
  StateMachine_init
    (digit_edges "s1" "s2" ++ digit_edges "s2" "s3" ++ digit_edges "s3" "s4" ++
     [("s4", "-", "s5")] ++
     digit_edges "s5" "s6" ++ digit_edges "s6" "s7" ++ digit_edges "s7" "s8" ++
     [("s8", "-", "s9")] ++
     digit_edges "s9" "s10" ++ digit_edges "s10" "s11" ++
     digit_edges "s11" "s12" ++ digit_edges "s12" "s13")
    "s1" ["s13"].

(** ** Paths of an edge list *)

(** The one-character strings [check] feeds to [advance]. *)
Fixpoint chars (s : string) : list string :=
  match s with
  | EmptyString => []
  | String c rest => String c EmptyString :: chars rest
  end.

(** [path edges st symbols st']: the edges of the list lead from [st] to
    [st'] along [symbols]. *)
Inductive path (edges : list (string * string * string))
  : string → list string → string → Prop :=
  | path_nil st : path edges st [] st
  | path_cons st symbol dest symbols st' :
      (st, symbol, dest) ∈ edges →
      path edges dest symbols st' →
      path edges st (symbol :: symbols) st'.

(** What an enumerator call gives, with [sofar] put before each string. *)
Definition prefixed (sofar : string) (r : result (list string) * StateMachine)
  : result (list string) * StateMachine :=
  match r with
  | (Ok l, sm') => (Ok ((λ p, sofar +:+ p) <$> l), sm')
  | (Raise e, sm') => (Raise e, sm')
  end.

(** [recur] against [sample2]: the same strings are appended to [works] as
    [sample2] returns, the same error is raised, and the machine is left as
    it was in either case. *)
Definition recur_follows (n : nat) : Prop :=
  ∀ path sm works,
    match sample2 n path sm with
    | (Ok l, _) => recur n path (sm, works) = (Ok tt, (sm, (works ++ l)%list))
    | (Raise e, _) =>
        ∃ added, recur n path (sm, works) = (Raise e, (sm, (works ++ added)%list))
    end.

(** The digits, and what a phone number is made of: three digits, a
    hyphen, three digits, a hyphen, four digits. *)
Definition digits : list string :=
  ["1"; "2"; "3"; "4"; "5"; "6"; "7"; "8"; "9"; "0"].

Definition phone_pattern : list (list string) :=
  [digits; digits; digits; ["-"]; digits; digits; digits; ["-"];
   digits; digits; digits; digits].

(** A function applied to what a call returns: [len(sample(...))]. *)
Definition result_map {A B} (f : A → B) (r : result A) : result B :=
  match r with
  | Ok a => Ok (f a)
  | Raise e => Raise e
  end.

(** The transitions of [test3], state after state: the class of symbols
    that leads on, and the state it leads to. *)
Definition phone_links : list (list string * string) :=
  [(digits, "s2"); (digits, "s3"); (digits, "s4"); (["-"], "s5");
   (digits, "s6"); (digits, "s7"); (digits, "s8"); (["-"], "s9");
   (digits, "s10"); (digits, "s11"); (digits, "s12"); (digits, "s13")].

(** [chain tbl st links]: from [st] exactly the symbols of the first class
    are valid transitions, all to the state of the first link, from where
    the rest of the links goes on; the state after the last link has no
    out-edge. *)
Fixpoint chain (tbl : gmap string Dict.t) (st : string)
    (links : list (list string * string)) : Prop :=
  match links with
  | [] => ∀ a, delta tbl st a = None
  | (class, next) :: rest =>
      (∀ a, delta tbl st a = if decide (a ∈ class) then Some next else None) ∧
      chain tbl next rest
  end.

(** The states a chain leaves again, and the state it ends in. *)
Fixpoint chain_inner (st : string) (links : list (list string * string))
  : list string :=
  match links with
  | [] => []
  | (_, next) :: rest => st :: chain_inner next rest
  end.

Fixpoint chain_end (st : string) (links : list (list string * string)) : string :=
  match links with
  | [] => st
  | (_, next) :: rest => chain_end next rest
  end.

(** "hi" repeated [k] times. *)
Fixpoint his (k : nat) : string :=
  match k with
  | 0 => ""
  | S k => "hi" +:+ his k
  end.

(** The strings that lead from [st] to a terminal state of [sm] through
    valid transitions. *)
Definition accepted_from (sm : StateMachine) (st : string) (s : string) : Prop :=
  ∃ st', run (states sm) st s = Some st' ∧ st' ∈ terminal_states sm.

(** * Properties *)

(** ** Dictionaries *)

Section dict_facts.
Implicit Types (k v : string) (d : Dict.t).

Lemma Dict_get_is_Some k d : is_Some (Dict.get k d) ↔ k ∈ Dict.keys d.
Proof.
  unfold Dict.keys. induction d as [|[k' v'] d IH]; simpl.
  - split; [intros [? [=]] | by intros ?%elem_of_nil].
  - case_decide as Hk.
    + subst. split; [intros _; left | eauto].
    + rewrite IH, elem_of_cons. split; [by right | by intros [?|?]].
Qed.

Lemma Dict_mem_true k d : Dict.mem k d = true ↔ k ∈ Dict.keys d.
Proof.
  rewrite <- Dict_get_is_Some. unfold Dict.mem.
  destruct (Dict.get k d); split; intros H; try done; eauto.
Qed.

Lemma Dict_mem_false k d : Dict.mem k d = false ↔ Dict.get k d = None.
Proof. unfold Dict.mem. by destruct (Dict.get k d). Qed.

Lemma Dict_get_elem_of k v d : Dict.get k d = Some v → (k, v) ∈ d.
Proof.
  induction d as [|[k' v'] d IH]; simpl; [done|].
  case_decide; [intros [= ->]; subst; left | intros; right; auto].
Qed.

Lemma Dict_get_NoDup k v d :
  NoDup (Dict.keys d) → (k, v) ∈ d → Dict.get k d = Some v.
Proof.
  unfold Dict.keys. induction d as [|[k' v'] d IH]; simpl.
  - by intros _ ?%elem_of_nil.
  - intros [Hk' Hd]%NoDup_cons [[= -> ->]|Hin]%elem_of_cons.
    + by rewrite decide_True.
    + rewrite decide_False; [auto|].
      intros ->. apply Hk'. apply list_elem_of_fmap. by exists (k', v).
Qed.

Lemma Dict_put_fresh k v d :
  Dict.get k d = None → Dict.put k v d = (d ++ [(k, v)])%list.
Proof.
  induction d as [|[k' v'] d IH]; simpl; [done|].
  case_decide; [done|]. intros ?. by rewrite IH.
Qed.

End dict_facts.

(** ** What an edge list declares *)

Section edge_lists.
Implicit Types (e : string * string * string) (s a d : string).
Implicit Types (es : list (string * string * string)).

Lemma out_of_app s es1 es2 :
  out_of s (es1 ++ es2) = (out_of s es1 ++ out_of s es2)%list.
Proof. apply omap_app. Qed.

Lemma mentioned_app es1 es2 :
  mentioned (es1 ++ es2) = (mentioned es1 ++ mentioned es2)%list.
Proof. apply bind_app. Qed.

Lemma elem_of_out_of s a d es : (a, d) ∈ out_of s es ↔ (s, a, d) ∈ es.
Proof.
  unfold out_of. rewrite list_elem_of_omap. split.
  - intros ([[src sym] dst] & Hin & Heq). case_decide; [|done].
    by simplify_eq.
  - intros Hin. exists (s, a, d). split; [done|]. by rewrite decide_True.
Qed.

Lemma elem_of_keys_out_of s a es :
  a ∈ Dict.keys (out_of s es) ↔ (s, a) ∈ edge_key <$> es.
Proof.
  unfold Dict.keys. rewrite !list_elem_of_fmap. split.
  - intros ([a' d] & -> & Hin%elem_of_out_of). by exists (s, a', d).
  - intros ([[src sym] dst] & [= -> ->] & Hin).
    exists (sym, dst). by rewrite elem_of_out_of.
Qed.

Lemma elem_of_mentioned s es :
  s ∈ mentioned es ↔ ∃ e, e ∈ es ∧ (s = e.1.1 ∨ s = e.2).
Proof.
  unfold mentioned. rewrite list_elem_of_bind. split.
  - intros ([[src sym] dst] & Hs & Hin). exists (src, sym, dst).
    split; [done|]. simpl. rewrite !elem_of_cons in Hs.
    destruct Hs as [?|[?|[]%elem_of_nil]]; auto.
  - intros ([[src sym] dst] & Hin & Hs). exists (src, sym, dst).
    split; [|done]. simpl in Hs.
    destruct Hs as [-> | ->]; [left | right; left].
Qed.

Lemma out_of_not_mentioned s es : s ∉ mentioned es → out_of s es = [].
Proof.
  intros Hs. destruct (out_of s es) as [|[a d] l] eqn:Heq; [done|].
  exfalso. apply Hs, elem_of_mentioned. exists (s, a, d).
  split; [|by left]. apply elem_of_out_of. rewrite Heq. by left.
Qed.

Lemma keys_out_of_NoDup s es :
  NoDup (edge_key <$> es) → NoDup (Dict.keys (out_of s es)).
Proof.
  unfold Dict.keys.
  induction es as [|[[src sym] dst] es IH]; simpl; [constructor|].
  intros [Hnotin Hnd]%NoDup_cons. case_decide; simpl; [|by auto].
  subst. apply NoDup_cons. split; [|by auto].
  by intros ?%elem_of_keys_out_of.
Qed.

Lemma get_out_of s a d es :
  NoDup (edge_key <$> es) →
  Dict.get a (out_of s es) = Some d ↔ (s, a, d) ∈ es.
Proof.
  intros Hnd. rewrite <- elem_of_out_of. split.
  - apply Dict_get_elem_of.
  - apply Dict_get_NoDup. by apply keys_out_of_NoDup.
Qed.

End edge_lists.

(** ** Construction *)

Section construction.
Implicit Types (e : string * string * string) (s a d : string).
Implicit Types (es : list (string * string * string)).
Implicit Types (tbl : gmap string Dict.t).

Lemma add_edges_snoc tbl es e :
  add_edges tbl (es ++ [e]) =
  match add_edges tbl es with
  | Ok tbl' => add_edge tbl' e
  | Raise x => Raise x
  end.
Proof.
  revert tbl. induction es as [|e' es IH]; intros tbl; simpl.
  - by destruct (add_edge tbl e).
  - destruct (add_edge tbl e'); [apply IH | done].
Qed.

Lemma ensure_state_lookup s s' tbl :
  ensure_state s tbl !! s' =
  if decide (s = s') then Some (default Dict.empty (tbl !! s)) else tbl !! s'.
Proof.
  unfold ensure_state. destruct (tbl !! s) as [out|] eqn:Hs.
  - case_decide; by simplify_eq.
  - rewrite lookup_insert. by case_decide.
Qed.

Lemma declares_default tbl es s :
  declares tbl es → default Dict.empty (tbl !! s) = out_of s es.
Proof.
  intros H. unfold declares in H. rewrite (H s). case_decide; simpl; [done|].
  by rewrite out_of_not_mentioned.
Qed.

(** After the two membership tests of the loop body, source and
    destination are keys of the table. *)
Lemma ensure_both_lookup tbl es src dst s :
  declares tbl es →
  ensure_state dst (ensure_state src tbl) !! s =
  if decide (s = src ∨ s = dst) then Some (out_of s es) else tbl !! s.
Proof.
  intros Hdecl. rewrite !ensure_state_lookup.
  destruct (decide (s = src ∨ s = dst)) as [Hor|Hnor].
  - destruct (decide (dst = s)) as [->|Hd]; simpl.
    + f_equal. case_decide; [subst|]; simpl; by apply declares_default.
    + destruct Hor as [-> | ->]; [|done].
      rewrite decide_True by done. f_equal. by apply declares_default.
  - rewrite !decide_False; [done| |]; intros ->; apply Hnor; auto.
Qed.

(** One more edge with a fresh (source, symbol) pair is registered. *)
Lemma add_edge_fresh tbl es src sym dst :
  declares tbl es → (src, sym) ∉ edge_key <$> es →
  ∃ tbl', add_edge tbl (src, sym, dst) = Ok tbl' ∧
          declares tbl' (es ++ [(src, sym, dst)]).
Proof.
  intros Hdecl Hfresh. unfold add_edge.
  pose proof (Hdecl : ∀ s, tbl !! s = _) as Hlook.
  assert (Dict.get sym (out_of src es) = None) as Hget.
  { apply eq_None_not_Some. by rewrite Dict_get_is_Some, elem_of_keys_out_of. }
  rewrite (ensure_both_lookup _ es) by done.
  rewrite decide_True by auto.
  assert (Dict.mem sym (out_of src es) = false) as -> by by apply Dict_mem_false.
  eexists; split; [done|].
  intros s. rewrite lookup_insert, (ensure_both_lookup _ es) by done.
  rewrite Dict_put_fresh, out_of_app by done. simpl.
  assert (∀ P : Prop, P ∨ s ∈ [src; dst] ↔ P ∨ (s = src ∨ s = dst)) as Hmem.
  { intros P. rewrite !elem_of_cons, elem_of_nil. tauto. }
  destruct (decide (src = s)) as [->|Hne1].
  - rewrite decide_True; [done|].
    rewrite mentioned_app, elem_of_app. apply Hmem. auto.
  - rewrite app_nil_r. destruct (decide (s = dst)) as [->|Hne2].
    + rewrite !decide_True; [done| |by auto].
      rewrite mentioned_app, elem_of_app. apply Hmem. auto.
    + rewrite decide_False by (intros [?|?]; congruence).
      rewrite (Hlook s). apply decide_ext.
      rewrite mentioned_app, elem_of_app. etrans; [|symmetry; apply Hmem].
      split; [by left|]. intros [?|[?|?]]; [done|congruence..].
Qed.

(** An edge whose (source, symbol) pair is taken is refused. *)
Lemma add_edge_taken tbl es src sym dst :
  declares tbl es → (src, sym) ∈ edge_key <$> es →
  add_edge tbl (src, sym, dst) = Raise DFAException.
Proof.
  intros Hdecl Htaken. unfold add_edge.
  rewrite (ensure_both_lookup _ es) by done.
  rewrite decide_True by auto.
  assert (Dict.mem sym (out_of src es) = true) as ->; [|done].
  by rewrite Dict_mem_true, elem_of_keys_out_of.
Qed.

Lemma declares_empty : declares ∅ [].
Proof. intros s. rewrite lookup_empty. rewrite decide_False; [done|]. by intros ?%elem_of_nil. Qed.

(** The whole loop of [__init__]: it succeeds on edge lists with pairwise
    distinct (source, symbol) pairs, with the table they declare, and
    raises the DFA exception on all others. *)
Lemma add_edges_spec es :
  (NoDup (edge_key <$> es) →
     ∃ tbl, add_edges ∅ es = Ok tbl ∧ declares tbl es) ∧
  (¬ NoDup (edge_key <$> es) → add_edges ∅ es = Raise DFAException).
Proof.
  induction es as [|[[src sym] dst] es [IHok IHdup]] using rev_ind.
  - split; [|intros []; constructor].
    intros _. exists ∅. split; [done | apply declares_empty].
  - rewrite fmap_app, add_edges_snoc. simpl.
    change [edge_key (src, sym, dst)] with [(src, sym)].
    split.
    + intros (Hnd & Hdisj & _)%NoDup_app.
      destruct (IHok Hnd) as (tbl & -> & Hdecl).
      apply add_edge_fresh; [done|].
      intros Hin. apply (Hdisj _ Hin). left.
    + intros Hdup. destruct (decide (NoDup (edge_key <$> es))) as [Hnd|Hnd].
      * destruct (IHok Hnd) as (tbl & -> & Hdecl).
        apply (add_edge_taken _ es); [done|].
        destruct (decide ((src, sym) ∈ edge_key <$> es)) as [|Hnotin]; [done|].
        exfalso. apply Hdup, NoDup_app. split_and!; [done| |apply NoDup_singleton].
        intros k Hk ->%list_elem_of_singleton. done.
      * by rewrite (IHdup Hnd).
Qed.

Lemma repeated_key_NoDup es : repeated_key es ↔ ¬ NoDup (edge_key <$> es).
Proof.
  split.
  - intros (i & j & e1 & e2 & Hij & Hi & Hj & Hkey) Hnd.
    apply Hij. apply (NoDup_lookup _ i j (edge_key e1) Hnd);
      rewrite list_lookup_fmap; [by rewrite Hi | by rewrite Hj, Hkey].
  - induction es as [|e es IH]; [intros []; constructor|].
    intros Hdup. destruct (decide (edge_key e ∈ edge_key <$> es)) as [Hin|Hnotin].
    + apply list_elem_of_lookup in Hin as [j Hj].
      rewrite list_lookup_fmap, fmap_Some in Hj.
      destruct Hj as (e2 & Hj & Hkey).
      by exists 0, (S j), e, e2.
    + destruct IH as (i & j & e1 & e2 & Hij & Hi & Hj & Hkey).
      { intros Hnd. apply Hdup. simpl. by apply NoDup_cons. }
      exists (S i), (S j), e1, e2. split_and!; [congruence|done..].
Qed.

Lemma StateMachine_init_NoDup es init_state terminals :
  NoDup (edge_key <$> es) →
  ∃ tbl, declares tbl es ∧
    StateMachine_init es init_state terminals =
    Ok (mkStateMachine tbl init_state (list_to_set terminals)).
Proof.
  intros Hnd. destruct (add_edges_spec es) as [Hok _].
  destruct (Hok Hnd) as (tbl & Heq & Hdecl).
  exists tbl. split; [done|]. unfold StateMachine_init. by rewrite Heq.
Qed.

Lemma StateMachine_init_dup es init_state terminals :
  ¬ NoDup (edge_key <$> es) →
  StateMachine_init es init_state terminals = Raise DFAException.
Proof.
  intros Hdup. destruct (add_edges_spec es) as [_ Hraise].
  unfold StateMachine_init. by rewrite (Hraise Hdup).
Qed.

End construction.

(** C2, as the specification words it, fails: listing one edge twice repeats
    a (source, symbol) pair with the same destination, and construction
    still raises. *)
Lemma StateMachine_init_same_destination_raises :
  ¬ conflicting_destinations twice_the_same_edge ∧
  StateMachine_init twice_the_same_edge "s1" ["s2"] = Raise DFAException.
Proof.
  split; [|done].
  intros (e1 & e2 & H1 & H2 & _ & Hne). apply Hne.
  unfold twice_the_same_edge in H1, H2.
  rewrite !elem_of_cons, elem_of_nil in H1, H2.
  destruct H1 as [->|[->|[]]], H2 as [->|[->|[]]]; done.
Qed.

(** C2 (amended): construction raises, and then the DFA exception, if and
    only if two edges at different positions of the edge list share their
    (source, symbol) pair, whatever their destinations; an edge list whose
    (source, symbol) pairs are pairwise distinct constructs a machine. *)
Theorem StateMachine_init_raises_iff edges init_state terminals :
  (StateMachine_init edges init_state terminals = Raise DFAException
     ↔ repeated_key edges) ∧
  (is_ok (StateMachine_init edges init_state terminals) = true
     ↔ ¬ repeated_key edges).
Proof.
  destruct (decide (NoDup (edge_key <$> edges))) as [Hnd|Hdup].
  - destruct (StateMachine_init_NoDup edges init_state terminals Hnd)
      as (tbl & _ & ->).
    rewrite repeated_key_NoDup. simpl.
    split; split; intros H; first [done | by exfalso; auto | by auto].
  - rewrite (StateMachine_init_dup edges init_state terminals Hdup).
    rewrite repeated_key_NoDup. simpl.
    split; split; intros H; first [done | by exfalso; auto | by auto].
Qed.

Lemma StateMachine_init_raises_iff_witness :
  StateMachine_init [("s1", "a", "s2"); ("s1", "a", "s3")] "s1" ["s3"]
    = Raise DFAException ∧
  is_ok (StateMachine_init [("s1", "a", "s2"); ("s2", "a", "s3")] "s1" ["s3"])
    = true.
Proof.
  split.
  - apply (StateMachine_init_raises_iff _ "s1" ["s3"]).
    exists 0, 1, ("s1", "a", "s2"), ("s1", "a", "s3"). split_and!; [lia|done..].
  - apply (StateMachine_init_raises_iff _ "s1" ["s3"]).
    rewrite repeated_key_NoDup. intros H. apply H.
    by apply (bool_decide_unpack _).
Defined.

(** ** Methods *)

Section methods.
Implicit Types (sm : StateMachine) (st symbol dest : string) (out : Dict.t).

Lemma with_state_id sm : with_state sm (state sm) = sm.
Proof. by destruct sm. Qed.

Lemma with_state_twice sm st1 st2 :
  with_state (with_state sm st1) st2 = with_state sm st2.
Proof. done. Qed.

Lemma bind_ok_inv {A B} (m : M A) (k : A → M B) sm b sm' :
  bind m k sm = (Ok b, sm') →
  ∃ a sm1, m sm = (Ok a, sm1) ∧ k a sm1 = (Ok b, sm').
Proof.
  unfold bind. destruct (m sm) as [[a|e] sm1]; [eauto | done].
Qed.

Lemma out_edges_eq sm :
  out_edges sm =
  match states sm !! state sm with
  | Some out => (Ok out, sm)
  | None => (Raise (KeyError (state sm)), sm)
  end.
Proof. done. Qed.

(** [advance] in one piece: a KeyError for the state or for the symbol
    leaves the machine as it was, a successful subscript moves it. *)
Lemma advance_eq symbol sm :
  advance symbol sm =
  match states sm !! state sm with
  | None => (Raise (KeyError (state sm)), sm)
  | Some out =>
      match Dict.get symbol out with
      | Some dest => (Ok tt, with_state sm dest)
      | None => (Raise (KeyError symbol), sm)
      end
  end.
Proof.
  unfold advance, bind. rewrite out_edges_eq.
  destruct (states sm !! state sm) as [out|]; [|done].
  by destruct (Dict.get symbol out).
Qed.

Lemma advance_delta symbol sm dest :
  delta (states sm) (state sm) symbol = Some dest →
  advance symbol sm = (Ok tt, with_state sm dest).
Proof.
  unfold delta. rewrite advance_eq.
  destruct (states sm !! state sm) as [out|]; [|done]. by intros ->.
Qed.

Lemma advance_ok_inv symbol sm u sm' :
  advance symbol sm = (Ok u, sm') →
  ∃ dest, delta (states sm) (state sm) symbol = Some dest ∧
          sm' = with_state sm dest.
Proof.
  unfold delta. rewrite advance_eq.
  destruct (states sm !! state sm) as [out|]; [|done].
  destruct (Dict.get symbol out) as [dest|]; [|done].
  intros [= _ <-]. eauto.
Qed.

(** One character of [check]. *)
Lemma check_cons c rest sm :
  check (String c rest) sm =
  match states sm !! state sm with
  | None => (Raise (KeyError (state sm)), sm)
  | Some out =>
      match Dict.get (String c EmptyString) out with
      | Some dest => check rest (with_state sm dest)
      | None => (Ok false, sm)
      end
  end.
Proof.
  simpl. unfold bind at 1. rewrite out_edges_eq.
  destruct (states sm !! state sm) as [out|] eqn:Hout; [|done].
  unfold Dict.mem.
  destruct (Dict.get (String c EmptyString) out) as [dest|] eqn:Hget; [|done].
  unfold bind. rewrite advance_eq, Hout, Hget. done.
Qed.

Lemma check_nil sm :
  check "" sm = (Ok (bool_decide (state sm ∈ terminal_states sm)), sm).
Proof.
  simpl. unfold bind, is_terminal.
  by destruct (bool_decide (state sm ∈ terminal_states sm)).
Qed.

End methods.

(** C6: when [symbol] is not a key of the current out-edge mapping,
    [advance] raises (a KeyError naming the symbol) and leaves the machine,
    hence its current state, as it was; when it is a key, [advance] returns
    and the current state is the successor the mapping gives, the table and
    the terminal states being untouched. *)
Theorem advance_spec (sm : StateMachine) (symbol : string) (out : Dict.t) :
  fst (out_edges sm) = Ok out →
  (Dict.mem symbol out = false →
     advance symbol sm = (Raise (KeyError symbol), sm)) ∧
  (Dict.mem symbol out = true →
     ∃ dest, Dict.get symbol out = Some dest ∧
             advance symbol sm = (Ok tt, with_state sm dest) ∧
             state (with_state sm dest) = dest).
Proof.
  rewrite out_edges_eq, advance_eq.
  destruct (states sm !! state sm) as [out'|]; [|done].
  simpl. intros [= ->]. unfold Dict.mem.
  destruct (Dict.get symbol out) as [dest|]; split; try done.
  intros _. by exists dest.
Qed.

Lemma advance_spec_witness :
  advance "b" one_edge = (Raise (KeyError "b"), one_edge) ∧
  ∃ dest, Dict.get "a" [("a", "s2")] = Some dest ∧
          advance "a" one_edge = (Ok tt, with_state one_edge dest) ∧
          state (with_state one_edge dest) = dest.
Proof.
  split.
  - apply (advance_spec one_edge "b" [("a", "s2")]); reflexivity.
  - apply (advance_spec one_edge "a" [("a", "s2")]); reflexivity.
Defined.

(** ** The path enumerator *)

Section enumerator.
Implicit Types (sm : StateMachine) (st symbol dest sofar : string).
Implicit Types (out : Dict.t) (n : nat).

Lemma sample2_0 sofar sm :
  sample2 0 sofar sm =
  (Ok (if decide (state sm ∈ terminal_states sm) then [sofar] else []), sm).
Proof.
  simpl. unfold bind, is_terminal.
  unfold bool_decide. by destruct (decide_rel _ _ _).
Qed.

Lemma sample2_S n sofar sm :
  sample2 (S n) sofar sm =
  match states sm !! state sm with
  | None => (Raise (KeyError (state sm)), sm)
  | Some out =>
      for_each (Dict.keys out) (sample2_branch n sofar (state sm)) [] sm
  end.
Proof.
  simpl. unfold bind at 1. unfold get_state. unfold bind at 1.
  rewrite out_edges_eq. by destruct (states sm !! state sm).
Qed.

(** One iteration that returns: the edge was a valid transition, the
    recursive call returned its paths from the successor state, and the
    cursor is back where the loop started. *)
Lemma sample2_branch_ok_inv n sofar edge result sm r sm' :
  restores n →
  sample2_branch n sofar (state sm) edge result sm = (Ok r, sm') →
  ∃ dest paths,
    delta (states sm) (state sm) edge = Some dest ∧
    sample2 n (sofar +:+ edge) (with_state sm dest)
      = (Ok paths, with_state sm dest) ∧
    r = (result ++ paths)%list ∧ sm' = sm.
Proof.
  intros Hrestore. unfold sample2_branch.
  intros (u & sm1 & Hadv & Hrest)%bind_ok_inv.
  apply advance_ok_inv in Hadv as (dest & Hdelta & ->).
  apply bind_ok_inv in Hrest as (paths & sm2 & Hrec & Hrest).
  pose proof (Hrestore _ _ _ _ Hrec) as ->.
  apply bind_ok_inv in Hrest as (u' & sm3 & Hset & Hret).
  unfold set_state in Hset. unfold ret in Hret. simplify_eq.
  exists dest, paths. by rewrite with_state_twice, with_state_id.
Qed.

(** The whole loop, when it returns: every branch was explored from the
    same machine, and the results are concatenated in iteration order. *)
Lemma for_each_branches n sofar sm edges result r sm' :
  restores n →
  for_each edges (sample2_branch n sofar (state sm)) result sm = (Ok r, sm') →
  sm' = sm ∧
  ∃ pathss,
    Forall2 (λ edge paths, ∃ dest,
               delta (states sm) (state sm) edge = Some dest ∧
               sample2 n (sofar +:+ edge) (with_state sm dest)
                 = (Ok paths, with_state sm dest))
            edges pathss ∧
    r = (result ++ concat pathss)%list.
Proof.
  intros Hrestore. revert result.
  induction edges as [|edge edges IH]; intros result; simpl.
  - intros [= <- <-]. split; [done|]. exists []. split; [constructor|].
    by rewrite app_nil_r.
  - intros (r1 & sm1 & Hbranch & Hrest)%bind_ok_inv.
    apply sample2_branch_ok_inv in Hbranch
      as (dest & paths & Hdelta & Hrec & -> & ->); [|done].
    apply IH in Hrest as (-> & pathss & Hall & ->).
    split; [done|]. exists (paths :: pathss). split.
    + constructor; [by exists dest | done].
    + simpl. by rewrite app_assoc.
Qed.

Lemma sample2_restores n : restores n.
Proof.
  induction n as [|n IH]; intros sofar sm l sm'.
  - rewrite sample2_0. by intros [= _ <-].
  - rewrite sample2_S. destruct (states sm !! state sm) as [out|]; [|done].
    intros Hloop. by apply for_each_branches in Hloop as [-> _].
Qed.

(** [sample2 (S n)], when it returns, is the concatenation of what
    [sample2 n] returns on the successor of each out-edge, every sibling
    starting from the same machine. *)
Lemma sample2_S_ok_inv n sofar sm l sm' :
  sample2 (S n) sofar sm = (Ok l, sm') →
  ∃ out pathss,
    states sm !! state sm = Some out ∧
    Forall2 (λ edge paths, ∃ dest,
               delta (states sm) (state sm) edge = Some dest ∧
               sample2 n (sofar +:+ edge) (with_state sm dest)
                 = (Ok paths, with_state sm dest))
            (Dict.keys out) pathss ∧
    l = concat pathss.
Proof.
  rewrite sample2_S. destruct (states sm !! state sm) as [out|]; [|done].
  intros Hloop. apply for_each_branches in Hloop as (_ & pathss & Hall & ->);
    [|apply sample2_restores].
  by exists out, pathss.
Qed.

Lemma string_app_cons c (s1 s2 : string) :
  String c s1 +:+ s2 = String c (s1 +:+ s2).
Proof. reflexivity. Qed.

Lemma string_app_nil_r (s : string) : s +:+ "" = s.
Proof. induction s as [|c s IH]; [done|]. by rewrite string_app_cons, IH. Qed.

Lemma string_app_assoc (s1 s2 s3 : string) :
  (s1 +:+ s2) +:+ s3 = s1 +:+ (s2 +:+ s3).
Proof.
  induction s1 as [|c s1 IH]; [done|]. by rewrite !string_app_cons, IH.
Qed.

Lemma string_length_1 (s : string) :
  String.length s = 1 → ∃ c, s = String c EmptyString.
Proof. destruct s as [|c [|c' s]]; simpl; [done | eauto | done]. Qed.

(** Soundness of the enumerator, with the accumulated prefix: what it
    returns is [sofar] followed by [n] characters that [check] accepts
    from the very machine the enumerator was called on. *)
Lemma sample2_sound n : ∀ sofar sm l sm',
  single_char_symbols (states sm) →
  sample2 n sofar sm = (Ok l, sm') →
  ∀ p, p ∈ l →
    ∃ w, p = sofar +:+ w ∧ String.length w = n ∧ fst (check w sm) = Ok true.
Proof.
  induction n as [|n IH]; intros sofar sm l sm' Hchars.
  - rewrite sample2_0. intros [= <- _] p Hp. case_decide as Hterm.
    + apply list_elem_of_singleton in Hp as ->. exists "".
      rewrite string_app_nil_r, check_nil. by rewrite bool_decide_eq_true_2.
    + by apply elem_of_nil in Hp.
  - intros (out & pathss & Hout & Hall & ->)%sample2_S_ok_inv p Hp.
    apply list_elem_of_In, in_concat in Hp as (paths & Hpaths & Hp).
    apply list_elem_of_In in Hpaths, Hp.
    apply list_elem_of_lookup in Hpaths as [i Hi].
    destruct (Forall2_lookup_r _ _ _ _ _ Hall Hi)
      as (edge & Hedge & dest & Hdelta & Hrec).
    destruct (IH _ (with_state sm dest) _ _ Hchars Hrec p Hp)
      as (w & -> & Hlen & Hcheck).
    destruct (string_length_1 edge) as [c ->].
    { pose proof (map_Forall_lookup_1 _ _ _ _ Hchars Hout) as Hkeys.
      rewrite Forall_forall in Hkeys. apply Hkeys.
      by eapply list_elem_of_lookup_2. }
    exists (String c w). rewrite string_app_assoc. split; [done|].
    split; [by simpl; rewrite Hlen|].
    rewrite check_cons. unfold delta in Hdelta. rewrite Hout in Hdelta |- *.
    by rewrite Hdelta.
Qed.

(** Whatever the symbols are, the enumerator returns strings that spell
    [n] symbols tracing valid transitions from the current state to a
    terminal state... *)
Lemma sample2_paths n : ∀ sofar sm l sm',
  sample2 n sofar sm = (Ok l, sm') →
  ∀ p, p ∈ l →
    ∃ symbols st,
      length symbols = n ∧ p = sofar +:+ spell symbols ∧
      run_symbols (states sm) (state sm) symbols = Some st ∧
      st ∈ terminal_states sm.
Proof.
  induction n as [|n IH]; intros sofar sm l sm'.
  - rewrite sample2_0. intros [= <- _] p Hp. case_decide as Hterm.
    + apply list_elem_of_singleton in Hp as ->. exists [], (state sm).
      by rewrite string_app_nil_r.
    + by apply elem_of_nil in Hp.
  - intros (out & pathss & Hout & Hall & ->)%sample2_S_ok_inv p Hp.
    apply list_elem_of_In, in_concat in Hp as (paths & Hpaths & Hp).
    apply list_elem_of_In in Hpaths, Hp.
    apply list_elem_of_lookup in Hpaths as [i Hi].
    destruct (Forall2_lookup_r _ _ _ _ _ Hall Hi)
      as (edge & Hedge & dest & Hdelta & Hrec).
    destruct (IH _ (with_state sm dest) _ _ Hrec p Hp)
      as (symbols & st & Hlen & -> & Hrun & Hterm).
    exists (edge :: symbols), st. simpl. rewrite Hdelta, Hlen.
    by rewrite string_app_assoc.
Qed.

(** ... and it returns all of them. *)
Lemma sample2_complete n : ∀ sofar sm l sm',
  sample2 n sofar sm = (Ok l, sm') →
  ∀ symbols st,
    length symbols = n →
    run_symbols (states sm) (state sm) symbols = Some st →
    st ∈ terminal_states sm →
    sofar +:+ spell symbols ∈ l.
Proof.
  induction n as [|n IH]; intros sofar sm l sm'.
  - rewrite sample2_0. intros [= <- _] [|? ?] st; [|done].
    simpl. intros _ [= <-] Hterm. rewrite decide_True by done.
    rewrite string_app_nil_r. left.
  - intros (out & pathss & Hout & Hall & ->)%sample2_S_ok_inv.
    intros [|symbol symbols] st; [done|]. simpl. intros [= Hlen].
    destruct (delta _ _ symbol) as [dest|] eqn:Hdelta; [|done].
    intros Hrun Hterm.
    assert (symbol ∈ Dict.keys out) as [i Hi]%list_elem_of_lookup.
    { apply Dict_get_is_Some. unfold delta in Hdelta.
      rewrite Hout in Hdelta. by rewrite Hdelta. }
    destruct (Forall2_lookup_l _ _ _ _ _ Hall Hi)
      as (paths & Hpaths & dest' & Hdelta' & Hrec).
    rewrite Hdelta in Hdelta'. injection Hdelta' as <-.
    apply list_elem_of_In, in_concat. exists paths.
    split; apply list_elem_of_In; [by eapply list_elem_of_lookup_2|].
    rewrite <- string_app_assoc.
    by apply (IH _ (with_state sm dest) _ _ Hrec symbols st).
Qed.



End enumerator.

(** C7: called with length 0, the enumerator returns the one-element list
    holding the empty string when the current state is terminal and the
    empty list otherwise, and does not touch the machine. *)
Theorem sample_0 (sm : StateMachine) :
  sample 0 sm =
  (Ok (if decide (state sm ∈ terminal_states sm) then [""] else []), sm).
Proof. apply sample2_0. Qed.

(** C8: when the enumerator returns, the machine, and so its current state,
    is what it was before the call; and so is it after every single
    iteration of the loop over the out-edges that returns, so that each
    sibling branch starts from the state the loop started from. *)
Theorem sample2_restores_state (n : nat) (sofar : string) (sm : StateMachine) :
  (∀ l sm', sample n sm = (Ok l, sm') → state sm' = state sm ∧ sm' = sm) ∧
  (∀ l sm', sample2 n sofar sm = (Ok l, sm') → state sm' = state sm ∧ sm' = sm) ∧
  (∀ edge result r sm',
     sample2_branch n sofar (state sm) edge result sm = (Ok r, sm') →
     state sm' = state sm ∧ sm' = sm).
Proof.
  split_and!.
  - intros l sm' H. by apply sample2_restores in H as ->.
  - intros l sm' H. by apply sample2_restores in H as ->.
  - intros edge result r sm' H.
    apply sample2_branch_ok_inv in H as (_ & _ & _ & _ & _ & ->);
      [done | apply sample2_restores].
Qed.

Lemma sample2_restores_state_witness :
  state (snd (sample 6 (machine test2))) = state (machine test2) ∧
  snd (sample 6 (machine test2)) = machine test2.
Proof.
  destruct (sample2_restores_state 6 "" (machine test2)) as [H _].
  apply (H (["xx@x.x"; "x@x.xx"; "x@xx.x"])).
  vm_compute. reflexivity.
Defined.

(** C4, as the specification words it, fails on a machine with a symbol of
    two characters: the enumerator returns the symbol, which has length 2
    where length 1 was asked for, and [check], which consumes characters,
    rejects it. *)
Lemma sample_two_character_symbol :
  is_ok two_character_symbol = true ∧
  on two_character_symbol (sample 1) = Ok ["ab"] ∧
  String.length "ab" ≠ 1 ∧
  on two_character_symbol (check "ab") = Ok false.
Proof. vm_compute. by split_and!. Qed.

(** C4 (amended): for every machine whose symbols are all single
    characters and every natural number [n], every string the enumerator
    returns has length exactly [n] and is accepted by [check] run on the
    machine as the enumerator was given it (a copy at the same current
    state). *)
Theorem sample_sound (n : nat) (sm : StateMachine) (l : list string)
    (sm' : StateMachine) :
  single_char_symbols (states sm) →
  sample n sm = (Ok l, sm') →
  ∀ p, p ∈ l → String.length p = n ∧ fst (check p sm) = Ok true.
Proof.
  intros Hchars Hsample p Hp.
  destruct (sample2_sound n "" sm l sm' Hchars Hsample p Hp)
    as (w & -> & Hlen & Hcheck).
  done.
Qed.

Lemma sample_sound_witness :
  String.length "x@xx.x" = 6 ∧ fst (check "x@xx.x" (machine test2)) = Ok true.
Proof.
  apply (sample_sound 6 (machine test2) ["xx@x.x"; "x@x.xx"; "x@xx.x"]
           (machine test2)).
  - apply (bool_decide_unpack _). vm_compute. reflexivity.
  - vm_compute. reflexivity.
  - right. right. left.
Defined.

(** ** The machines of the notebook *)

(** C1, as the specification words it, fails: "ab" ends in s3, which is
    terminal, so [check] accepts it. *)
Lemma check_ab_a__accepts_ab :
  ¬ (on ab_a_ (check "aba") = Ok true ∧
     on ab_a_ (check "ab") = Ok false ∧
     on ab_a_ (check "ba") = Ok false).
Proof. intros (_ & Hab & _). vm_compute in Hab. discriminate. Qed.

(** C1 (amended): on the machine built from the edges (s1,a,s2), (s2,b,s3),
    (s3,a,s3) with initial state s1 and terminal states {s3}, [check] run
    on a fresh instance returns true for "aba", true for "ab" and false
    for "ba". *)
Theorem check_ab_a_ :
  on ab_a_ (check "aba") = Ok true ∧
  on ab_a_ (check "ab") = Ok true ∧
  on ab_a_ (check "ba") = Ok false.
Proof. vm_compute. by split_and!. Qed.

(** C9: on the address machine [test2] the enumerator returns, at length 5,
    the single string "x@x.x", and at length 6 three strings that are, up
    to the order of enumeration, "x@x.xx", "x@xx.x" and "xx@x.x". *)
Theorem sample_test2 :
  on test2 (sample 5) = Ok ["x@x.x"] ∧
  ∃ l, on test2 (sample 6) = Ok l ∧ l ≡ₚ ["x@x.xx"; "x@xx.x"; "xx@x.x"].
Proof.
  split; [by vm_compute|].
  exists ["xx@x.x"; "x@x.xx"; "x@xx.x"]. split; [by vm_compute|].
  change ["xx@x.x"; "x@x.xx"; "x@xx.x"] with (["xx@x.x"] ++ ["x@x.xx"; "x@xx.x"]).
  change ["x@x.xx"; "x@xx.x"; "xx@x.x"] with (["x@x.xx"; "x@xx.x"] ++ ["xx@x.x"]).
  apply Permutation_app_comm.
Qed.

(** ** The acceptance check *)

Section acceptance.
Implicit Types (sm : StateMachine) (st dest : string) (s p q : string).
Implicit Types (tbl : gmap string Dict.t).

(** [check] leaves the cursor where the longest valid prefix leads,
    whatever it returns or raises. *)
Lemma check_final_state s : ∀ sm,
  snd (check s sm) = with_state sm (walk (states sm) (state sm) s).
Proof.
  induction s as [|c s IH]; intros sm.
  - by rewrite check_nil, with_state_id.
  - rewrite check_cons. simpl. unfold delta.
    destruct (states sm !! state sm) as [out|]; [|by rewrite with_state_id].
    destruct (Dict.get _ out) as [dest|]; [|by rewrite with_state_id].
    by rewrite IH.
Qed.

(** [walk] does follow a prefix all of whose characters are valid
    transitions, and that prefix cannot be extended. *)
Lemma walk_longest_valid_prefix tbl s : ∀ st,
  ∃ p q, s = p +:+ q ∧ run tbl st p = Some (walk tbl st s) ∧
         (q = "" ∨ ∃ c q', q = String c q' ∧
                            delta tbl (walk tbl st s) (String c EmptyString) = None).
Proof.
  induction s as [|c s IH]; intros st.
  - exists "", "". by split_and!; [..|left].
  - simpl. destruct (delta tbl st (String c EmptyString)) as [dest|] eqn:Hdelta.
    + destruct (IH dest) as (p & q & -> & Hrun & Hq).
      exists (String c p), q. split_and!; [done| |done].
      simpl. by rewrite Hdelta.
    + exists "", (String c s). split_and!; [done..|]. right. eauto.
Qed.

(** When every character is a valid transition, [check] consumes the whole
    string and answers whether the state reached is terminal. *)
Lemma check_run_Some s : ∀ sm st,
  run (states sm) (state sm) s = Some st →
  check s sm = (Ok (bool_decide (st ∈ terminal_states sm)), with_state sm st).
Proof.
  induction s as [|c s IH]; intros sm st.
  - rewrite check_nil. simpl. intros [= <-]. by rewrite with_state_id.
  - rewrite check_cons. simpl. unfold delta.
    destruct (states sm !! state sm) as [out|]; [|done].
    destruct (Dict.get _ out) as [dest|]; [|done].
    intros Hrun. by rewrite (IH (with_state sm dest) st).
Qed.

(** When some character is not a valid transition where it is consumed,
    [check] returns false, provided the current state and all destinations
    are keys of the table. *)
Lemma check_run_None s : ∀ sm,
  closed (states sm) → is_Some (states sm !! state sm) →
  run (states sm) (state sm) s = None →
  fst (check s sm) = Ok false.
Proof.
  induction s as [|c s IH]; intros sm Hclosed [out Hout]; [done|].
  rewrite check_cons. simpl.
  destruct (delta _ _ _) as [dest|] eqn:Hdelta.
  - pose proof (Hclosed _ _ _ Hdelta) as Hdest.
    unfold delta in Hdelta. rewrite Hout in Hdelta |- *. rewrite Hdelta.
    intros Hrun. by apply IH.
  - unfold delta in Hdelta. rewrite Hout in Hdelta |- *. by rewrite Hdelta.
Qed.

(** When the cursor is not a key of the table, the first character makes
    [check] raise the KeyError of [out_edges]. *)
Lemma check_unknown_state c s sm :
  states sm !! state sm = None →
  check (String c s) sm = (Raise (KeyError (state sm)), sm).
Proof. intros H. by rewrite check_cons, H. Qed.

End acceptance.

(** C10: [check] starts from the current state of the machine it is given
    and leaves the machine where the longest prefix of valid transitions
    led, a prefix that is the whole string or is followed by a character
    without out-edge; so a second [check] on the same instance can answer
    differently from a [check] on a fresh instance: after "ab", the machine
    [ab_a_] accepts "a", which a fresh instance rejects. *)
Theorem check_mutates_in_place :
  (∀ s sm, ∃ p q st,
     s = p +:+ q ∧ run (states sm) (state sm) p = Some st ∧
     (q = "" ∨ ∃ c q', q = String c q' ∧
                        delta (states sm) st (String c EmptyString) = None) ∧
     snd (check s sm) = with_state sm st) ∧
  (is_ok ab_a_ = true ∧
   fst (check "ab" (machine ab_a_)) = Ok true ∧
   state (snd (check "ab" (machine ab_a_))) = "s3" ∧
   fst (check "a" (machine ab_a_)) = Ok false ∧
   fst (check "a" (snd (check "ab" (machine ab_a_)))) = Ok true).
Proof.
  split.
  - intros s sm.
    destruct (walk_longest_valid_prefix (states sm) s (state sm))
      as (p & q & Hs & Hrun & Hq).
    exists p, q, (walk (states sm) (state sm) s).
    split_and!; [done..|]. apply check_final_state.
  - vm_compute. by split_and!.
Qed.

(** ** Constructed machines *)

Section constructed.
Implicit Types (sm : StateMachine) (st dest init_state : string).
Implicit Types (tbl : gmap string Dict.t).
Implicit Types (edges : list (string * string * string)).

Lemma StateMachine_init_ok_inv edges init_state terminals sm :
  StateMachine_init edges init_state terminals = Ok sm →
  NoDup (edge_key <$> edges) ∧ declares (states sm) edges ∧
  state sm = init_state ∧ terminal_states sm = list_to_set terminals.
Proof.
  destruct (decide (NoDup (edge_key <$> edges))) as [Hnd|Hdup].
  - destruct (StateMachine_init_NoDup edges init_state terminals Hnd)
      as (tbl & Hdecl & ->).
    by intros [= <-].
  - by rewrite (StateMachine_init_dup edges init_state terminals Hdup).
Qed.

Lemma declares_mentioned tbl edges st :
  declares tbl edges → st ∈ mentioned edges → tbl !! st = Some (out_of st edges).
Proof. intros Hdecl Hin. rewrite (Hdecl st). by rewrite decide_True. Qed.

Lemma declares_not_mentioned tbl edges st :
  declares tbl edges → st ∉ mentioned edges → tbl !! st = None.
Proof. intros Hdecl Hin. rewrite (Hdecl st). by rewrite decide_False. Qed.

Lemma declares_delta tbl edges st symbol dest :
  declares tbl edges → delta tbl st symbol = Some dest →
  (st, symbol, dest) ∈ edges.
Proof.
  intros Hdecl. unfold delta. rewrite (Hdecl st).
  case_decide; [|done]. intros Hget%Dict_get_elem_of.
  by apply elem_of_out_of.
Qed.

Lemma declares_closed tbl edges : declares tbl edges → closed tbl.
Proof.
  intros Hdecl st symbol dest Hdelta%(declares_delta _ edges); [|done].
  rewrite (declares_mentioned tbl edges); [done..|].
  apply elem_of_mentioned. exists (st, symbol, dest). split; [done | by right].
Qed.

Lemma run_symbols_closed tbl symbols : ∀ st st',
  closed tbl → is_Some (tbl !! st) →
  run_symbols tbl st symbols = Some st' → is_Some (tbl !! st').
Proof.
  induction symbols as [|symbol symbols IH]; intros st st' Hclosed Hst; simpl.
  - by intros [= <-].
  - destruct (delta tbl st symbol) as [dest|] eqn:Hdelta; [|done].
    apply IH; [done|]. by eapply Hclosed.
Qed.

(** The states the valid advances reach are those [run_symbols] computes. *)
Lemma advance_all_ok symbols : ∀ sm sm',
  advance_all symbols sm = (Ok tt, sm') ↔
  ∃ st, run_symbols (states sm) (state sm) symbols = Some st ∧
        sm' = with_state sm st.
Proof.
  induction symbols as [|symbol symbols IH]; intros sm sm'; simpl.
  - unfold ret. split.
    + intros [= <-]. exists (state sm). by rewrite with_state_id.
    + intros (st & [= <-] & ->). by rewrite with_state_id.
  - unfold bind. rewrite advance_eq. unfold delta.
    destruct (states sm !! state sm) as [out|]; [|by split; [|intros (? & ? & ?)]].
    destruct (Dict.get symbol out) as [dest|]; [|by split; [|intros (? & ? & ?)]].
    by rewrite IH.
Qed.

(** No out-edges declared for a state: the mapping is empty. *)
Lemma out_of_nil st edges :
  out_of st edges = [] ↔ ∀ e, e ∈ edges → e.1.1 ≠ st.
Proof.
  split.
  - intros Hnil [[src sym] dst] Hin ?; simpl in *; subst.
    apply elem_of_out_of in Hin. rewrite Hnil in Hin. by apply elem_of_nil in Hin.
  - intros Hno. destruct (out_of st edges) as [|[sym dst] l] eqn:Heq; [done|].
    exfalso. apply (Hno (st, sym, dst)); [|done].
    apply elem_of_out_of. rewrite Heq. left.
Qed.

(** On a constructed machine whose initial state appears in some edge,
    [out_edges] returns at every state valid advances reach: the out-edges
    the edge list declares for it, none if the state is the source of no
    edge. *)
Lemma out_edges_reachable edges init_state terminals sm symbols sm' :
  StateMachine_init edges init_state terminals = Ok sm →
  init_state ∈ mentioned edges →
  advance_all symbols sm = (Ok tt, sm') →
  out_edges sm' = (Ok (out_of (state sm') edges), sm') ∧
  is_stuck sm' =
    (Ok (bool_decide (Forall (λ e, e.1.1 ≠ state sm') edges)), sm').
Proof.
  intros (Hnd & Hdecl & Hinit & _)%StateMachine_init_ok_inv Hin.
  intros (st & Hrun & ->)%advance_all_ok. rewrite Hinit in Hrun.
  assert (is_Some (states sm !! st)) as Hst.
  { eapply run_symbols_closed; [by eapply declares_closed| |done].
    by rewrite (declares_mentioned _ edges). }
  assert (states sm !! st = Some (out_of st edges)) as Hout.
  { destruct Hst as [out Hout]. rewrite Hout. pose proof (Hdecl st) as Hst.
    rewrite Hout in Hst. by case_decide. }
  unfold is_stuck, bind. rewrite out_edges_eq. simpl. rewrite Hout.
  split; [done|]. unfold ret. do 2 f_equal. apply bool_decide_ext.
  rewrite Forall_forall, <- out_of_nil. by destruct (out_of st edges).
Qed.

(** On a constructed machine whose initial state appears in no edge,
    [out_edges] raises the KeyError of the failed subscript. *)
Lemma out_edges_unmentioned edges init_state terminals sm :
  StateMachine_init edges init_state terminals = Ok sm →
  init_state ∉ mentioned edges →
  out_edges sm = (Raise (KeyError init_state), sm).
Proof.
  intros (Hnd & Hdecl & Hinit & _)%StateMachine_init_ok_inv Hnotin.
  rewrite out_edges_eq, Hinit.
  by rewrite (declares_not_mentioned _ edges).
Qed.

(** [check] on a constructed machine whose initial state appears in some
    edge never raises: it answers whether the state reached is terminal
    when every character is a valid transition, and false otherwise. *)
Lemma check_constructed edges init_state terminals sm s :
  StateMachine_init edges init_state terminals = Ok sm →
  init_state ∈ mentioned edges →
  check s sm =
  match run (states sm) init_state s with
  | Some st => (Ok (bool_decide (st ∈ terminals)), with_state sm st)
  | None => (Ok false, with_state sm (walk (states sm) init_state s))
  end.
Proof.
  intros (Hnd & Hdecl & Hinit & Hterm)%StateMachine_init_ok_inv Hin.
  rewrite <- Hinit.
  destruct (run (states sm) (state sm) s) as [st|] eqn:Hrun.
  - rewrite (check_run_Some s sm st Hrun). do 2 f_equal.
    apply bool_decide_ext. rewrite Hterm. apply elem_of_list_to_set.
  - rewrite (surjective_pairing (check s sm)), check_final_state.
    f_equal. apply check_run_None; [by eapply declares_closed| |done].
    rewrite Hinit. by rewrite (declares_mentioned _ edges).
Qed.


End constructed.

(** C3 fails on the code: a machine whose initial state appears in no edge
    is constructed without error, yet [out_edges], and [is_stuck] with it,
    raises a KeyError where the claim promises the empty mapping.  The
    constructor registers the source and the destination of every edge as
    keys of the table, not the initial state. *)
Theorem out_edges_initial_state_in_no_edge :
  is_ok no_edges = true ∧
  on no_edges out_edges = Raise (KeyError "s1") ∧
  on no_edges is_stuck = Raise (KeyError "s1").
Proof. vm_compute. by split_and!. Qed.

(** C5 fails on the code, by the same missing key: on a machine whose
    initial state appears in no edge, a string whose first character is not
    a valid transition makes [check] raise a KeyError where the claim
    promises the answer false. *)
Theorem check_initial_state_in_no_edge :
  is_ok initial_state_apart = true ∧
  delta (states (machine initial_state_apart)) "s1" "a" = None ∧
  on initial_state_apart (check "a") = Raise (KeyError "s1").
Proof. vm_compute. by split_and!. Qed.

(** * Further properties of the code *)

(** ** Edge lists, tables and paths *)

Section edge_paths.
Implicit Types (sm : StateMachine) (st dest init_state symbol : string).
Implicit Types (tbl : gmap string Dict.t) (symbols : list string).
Implicit Types (edges : list (string * string * string)).

Lemma declares_delta_iff tbl edges st symbol dest :
  declares tbl edges → NoDup (edge_key <$> edges) →
  delta tbl st symbol = Some dest ↔ (st, symbol, dest) ∈ edges.
Proof.
  intros Hdecl Hnd. split; [by apply declares_delta|].
  intros Hin. unfold delta.
  rewrite (declares_mentioned tbl edges st Hdecl).
  - by apply get_out_of.
  - apply elem_of_mentioned. exists (st, symbol, dest). split; [done | by left].
Qed.

Lemma run_chars tbl s : ∀ st, run tbl st s = run_symbols tbl st (chars s).
Proof.
  induction s as [|c s IH]; intros st; simpl; [done|].
  by destruct (delta tbl st _).
Qed.

Lemma spell_chars s : spell (chars s) = s.
Proof. induction s as [|c s IH]; simpl; [done|]. by rewrite string_app_cons, IH. Qed.

Lemma length_chars s : length (chars s) = String.length s.
Proof. induction s as [|c s IH]; simpl; [done | by rewrite IH]. Qed.

Lemma run_symbols_path tbl edges symbols :
  declares tbl edges → NoDup (edge_key <$> edges) →
  ∀ st st', run_symbols tbl st symbols = Some st' ↔ path edges st symbols st'.
Proof.
  intros Hdecl Hnd. induction symbols as [|symbol symbols IH]; intros st st'; simpl.
  - split; [intros [= <-]; constructor | by inversion 1].
  - split.
    + destruct (delta tbl st symbol) as [dest|] eqn:Hdelta; [|done].
      intros Hrun. apply (path_cons _ _ _ dest); [|by apply IH].
      by apply (declares_delta_iff tbl).
    + inversion 1 as [|? ? dest ? ? Hin Hpath]; subst.
      apply (declares_delta_iff tbl) in Hin; [|done..].
      rewrite Hin. by apply IH.
Qed.

Lemma path_mentioned edges st symbols st' :
  path edges st symbols st' → st' = st ∨ st' ∈ mentioned edges.
Proof.
  induction 1 as [|st symbol dest symbols st' Hin _ [->|IH]]; [by left|..];
    right; [|done].
  apply elem_of_mentioned. exists (st, symbol, dest). split; [done | by right].
Qed.

End edge_paths.

(** X1: on a constructed machine, whatever state the cursor is on,
    [advance] moves it from [st] to [dest] along [symbol] exactly when
    (st, symbol, dest) is an edge of the list the machine was built from. *)
Theorem advance_follows_edges (edges : list (string * string * string))
    (init_state : string) (terminals : list string) (sm : StateMachine)
    (st symbol dest : string) :
  StateMachine_init edges init_state terminals = Ok sm →
  advance symbol (with_state sm st) = (Ok tt, with_state sm dest)
    ↔ (st, symbol, dest) ∈ edges.
Proof.
  intros (Hnd & Hdecl & _ & _)%StateMachine_init_ok_inv.
  rewrite <- (declares_delta_iff (states sm) edges) by done. split.
  - intros (dest' & Hdelta & Heq)%advance_ok_inv. simpl in Hdelta.
    injection Heq as ->. done.
  - intros Hdelta. by rewrite (advance_delta symbol (with_state sm st) dest).
Qed.

Lemma advance_follows_edges_witness :
  advance "b" (with_state (machine ab_a_) "s2")
    = (Ok tt, with_state (machine ab_a_) "s3").
Proof.
  apply (advance_follows_edges
           [("s1", "a", "s2"); ("s2", "b", "s3"); ("s3", "a", "s3")]
           "s1" ["s3"]).
  - reflexivity.
  - right. left.
Defined.



(** X3: on a constructed machine a sequence of [advance] calls succeeds
    exactly when its symbols trace a path of the edge list from the initial
    state; the cursor is then at the end of that path, which is the initial
    state or a state the edge list mentions, and neither the table nor the
    terminal states have changed. *)
Theorem advance_all_path (edges : list (string * string * string))
    (init_state : string) (terminals : list string) (sm sm' : StateMachine)
    (symbols : list string) :
  StateMachine_init edges init_state terminals = Ok sm →
  advance_all symbols sm = (Ok tt, sm') ↔
  path edges init_state symbols (state sm') ∧
  (state sm' = init_state ∨ state sm' ∈ mentioned edges) ∧
  states sm' = states sm ∧ terminal_states sm' = terminal_states sm.
Proof.
  intros (Hnd & Hdecl & Hinit & _)%StateMachine_init_ok_inv.
  rewrite advance_all_ok, Hinit. split.
  - intros (st & Hrun & ->). simpl.
    apply (run_symbols_path _ edges) in Hrun; [|done..].
    split_and!; [done| |done..]. by eapply path_mentioned.
  - intros (Hpath & _ & Hstates & Hterm). exists (state sm'). split.
    + by apply (run_symbols_path _ edges).
    + destruct sm, sm'; simpl in *; by subst.
Qed.

Lemma advance_all_path_witness :
  advance_all ["a"; "b"; "a"] (machine ab_a_)
    = (Ok tt, with_state (machine ab_a_) "s3").
Proof.
  apply (advance_all_path
           [("s1", "a", "s2"); ("s2", "b", "s3"); ("s3", "a", "s3")]
           "s1" ["s3"]); [reflexivity|].
  split_and!; [|right; by apply (bool_decide_unpack _)|done..]. simpl.
  apply (path_cons _ "s1" "a" "s2"); [by apply (bool_decide_unpack _)|].
  apply (path_cons _ "s2" "b" "s3"); [by apply (bool_decide_unpack _)|].
  apply (path_cons _ "s3" "a" "s3"); [by apply (bool_decide_unpack _)|].
  constructor.
Defined.

(** ** Stuck machines *)

Lemma is_stuck_true (sm : StateMachine) :
  fst (is_stuck sm) = Ok true ↔ states sm !! state sm = Some Dict.empty.
Proof.
  unfold is_stuck, bind. rewrite out_edges_eq.
  destruct (states sm !! state sm) as [out|]; [destruct out|]; simpl.
  - done.
  - split; intros [=].
  - split; intros [=].
Qed.

(** X4: [is_stuck] tells whether [advance] can succeed: when it answers
    true every [advance] raises the KeyError of its symbol, when it answers
    false some [advance] succeeds, and when it raises (the cursor is no key
    of the table) every [advance] raises the same error.  Neither call
    moves the cursor in the failing cases, and [is_stuck] never does. *)
Theorem is_stuck_advance (sm : StateMachine) :
  snd (is_stuck sm) = sm ∧
  (fst (is_stuck sm) = Ok true →
     ∀ symbol, advance symbol sm = (Raise (KeyError symbol), sm)) ∧
  (fst (is_stuck sm) = Ok false →
     ∃ symbol dest, advance symbol sm = (Ok tt, with_state sm dest)) ∧
  (∀ e, fst (is_stuck sm) = Raise e →
     ∀ symbol, advance symbol sm = (Raise e, sm)).
Proof.
  unfold is_stuck, bind. rewrite out_edges_eq.
  destruct (states sm !! state sm) as [out|] eqn:Hout;
    [destruct out as [|[k v] out]|]; simpl.
  - split_and!; [done| |done..].
    intros _ symbol. by rewrite advance_eq, Hout.
  - split_and!; [done..| |done].
    intros _. exists k, v. rewrite advance_eq, Hout. simpl.
    by rewrite decide_True.
  - split_and!; [done..|].
    intros e [= <-] symbol. by rewrite advance_eq, Hout.
Qed.

Lemma is_stuck_advance_witness :
  advance "y" (with_state (machine test1) "s4")
    = (Raise (KeyError "y"), with_state (machine test1) "s4") ∧
  ∃ symbol dest,
    advance symbol (machine test1) = (Ok tt, with_state (machine test1) dest).
Proof.
  destruct (is_stuck_advance (with_state (machine test1) "s4"))
    as (_ & Hstuck & _).
  destruct (is_stuck_advance (machine test1)) as (_ & _ & Hfree & _).
  split; [by apply Hstuck | by apply Hfree].
Defined.

(** X5: from a stuck state nothing of positive length is enumerated and
    no non-empty string is accepted; both calls return without moving the
    cursor. *)
Theorem stuck_machine (sm : StateMachine) :
  fst (is_stuck sm) = Ok true →
  (∀ n sofar, sample2 (S n) sofar sm = (Ok [], sm)) ∧
  (∀ n, sample (S n) sm = (Ok [], sm)) ∧
  (∀ c s, check (String c s) sm = (Ok false, sm)).
Proof.
  intros Hout%is_stuck_true. split_and!.
  - intros n sofar. by rewrite sample2_S, Hout.
  - intros n. unfold sample. by rewrite sample2_S, Hout.
  - intros c s. by rewrite check_cons, Hout.
Qed.

Lemma stuck_machine_witness :
  sample 3 (with_state (machine test1) "s7")
    = (Ok [], with_state (machine test1) "s7") ∧
  check "hello" (with_state (machine test1) "s7")
    = (Ok false, with_state (machine test1) "s7").
Proof.
  destruct (stuck_machine (with_state (machine test1) "s7") eq_refl)
    as (_ & Hsample & Hcheck).
  split; [apply Hsample | apply Hcheck].
Defined.

(** ** What [check] accepts *)

Section acceptance_facts.
Implicit Types (sm : StateMachine) (st dest init_state : string) (s : string).
Implicit Types (edges : list (string * string * string)).

(** [check] answers true exactly on the strings all of whose characters are
    valid transitions and that end in a terminal state, on every machine. *)
Lemma check_true_iff_run s : ∀ sm,
  fst (check s sm) = Ok true ↔
  ∃ st, run (states sm) (state sm) s = Some st ∧ st ∈ terminal_states sm.
Proof.
  induction s as [|c s IH]; intros sm.
  - rewrite check_nil. simpl. split.
    + intros [= Hterm%bool_decide_eq_true_1]. eauto.
    + intros (st & [= <-] & Hterm). by rewrite bool_decide_eq_true_2.
  - rewrite check_cons. simpl. unfold delta.
    destruct (states sm !! state sm) as [out|]; [|by split; [|intros (? & ? & ?)]].
    destruct (Dict.get _ out) as [dest|]; [|by split; [|intros (? & ? & ?)]].
    apply (IH (with_state sm dest)).
Qed.

(** The answer of [check] only depends on which states are keys of the
    table, on the transition function, on the cursor and on the terminal
    states. *)
Lemma check_ext s : ∀ sm sm',
  state sm = state sm' →
  terminal_states sm = terminal_states sm' →
  (∀ st, is_Some (states sm !! st) ↔ is_Some (states sm' !! st)) →
  (∀ st a, delta (states sm) st a = delta (states sm') st a) →
  fst (check s sm) = fst (check s sm').
Proof.
  induction s as [|c s IH]; intros sm sm' Hst Hterm Hkeys Hdelta.
  - rewrite !check_nil. simpl. by rewrite Hst, Hterm.
  - rewrite !check_cons. rewrite <- Hst.
    pose proof (Hkeys (state sm)) as Hkey.
    pose proof (Hdelta (state sm) (String c EmptyString)) as Hd.
    unfold delta in Hd.
    destruct (states sm !! state sm) as [out|],
             (states sm' !! state sm) as [out'|].
    + rewrite Hd. destruct (Dict.get _ out') as [dest|]; [|done].
      by apply IH.
    + destruct Hkey as [[? [=]] _]. eauto.
    + destruct Hkey as [_ [? [=]]]. eauto.
    + done.
Qed.

(** Reading [s1] entirely and then [s2] is reading [s1 +:+ s2]. *)
Lemma check_app_run s1 s2 : ∀ sm st,
  run (states sm) (state sm) s1 = Some st →
  check (s1 +:+ s2) sm = check s2 (with_state sm st).
Proof.
  induction s1 as [|c s1 IH]; intros sm st.
  - simpl. intros [= <-]. by rewrite with_state_id.
  - rewrite string_app_cons, check_cons. simpl. unfold delta.
    destruct (states sm !! state sm) as [out|]; [|done].
    destruct (Dict.get _ out) as [dest|]; [|done].
    intros Hrun. by rewrite (IH (with_state sm dest) st).
Qed.

End acceptance_facts.

(** X6: [check] decides the language of the edge list: on a fresh machine
    it returns true exactly for the strings whose characters trace a path
    of edges from the initial state to a terminal state. *)
Theorem check_accepts_iff_path (edges : list (string * string * string))
    (init_state : string) (terminals : list string) (sm : StateMachine)
    (s : string) :
  StateMachine_init edges init_state terminals = Ok sm →
  fst (check s sm) = Ok true ↔
  ∃ st, path edges init_state (chars s) st ∧ st ∈ terminals.
Proof.
  intros (Hnd & Hdecl & Hinit & Hterm)%StateMachine_init_ok_inv.
  rewrite check_true_iff_run, Hinit, Hterm.
  split; intros (st & Hrun & Hin); exists st.
  - rewrite run_chars in Hrun. apply (run_symbols_path _ edges) in Hrun; [|done..].
    split; [done|]. by apply elem_of_list_to_set in Hin.
  - rewrite run_chars. split; [by apply (run_symbols_path _ edges)|].
    by apply elem_of_list_to_set.
Qed.

Lemma check_accepts_iff_path_witness :
  fst (check "aba" (machine ab_a_)) = Ok true.
Proof.
  apply (check_accepts_iff_path
           [("s1", "a", "s2"); ("s2", "b", "s3"); ("s3", "a", "s3")]
           "s1" ["s3"]); [reflexivity|].
  exists "s3". split; [|by left]. simpl.
  apply (path_cons _ "s1" "a" "s2"); [by apply (bool_decide_unpack _)|].
  apply (path_cons _ "s2" "b" "s3"); [by apply (bool_decide_unpack _)|].
  apply (path_cons _ "s3" "a" "s3"); [by apply (bool_decide_unpack _)|].
  constructor.
Defined.

(** X7: on a constructed machine whose initial state appears in some edge
    [check] never raises; on one whose initial state appears in no edge it
    raises the KeyError of the initial state on every non-empty string and
    answers the empty string.  In all cases the cursor is left where the
    longest prefix of valid transitions leads. *)
Theorem check_raises_iff (edges : list (string * string * string))
    (init_state : string) (terminals : list string) (sm : StateMachine)
    (s : string) :
  StateMachine_init edges init_state terminals = Ok sm →
  snd (check s sm) = with_state sm (walk (states sm) init_state s) ∧
  (init_state ∈ mentioned edges → ∃ b, fst (check s sm) = Ok b) ∧
  (init_state ∉ mentioned edges →
     fst (check s sm) =
     if decide (s = "") then Ok (bool_decide (init_state ∈ terminals))
     else Raise (KeyError init_state)).
Proof.
  intros Hinit. split_and!.
  - rewrite check_final_state.
    by apply StateMachine_init_ok_inv in Hinit as (_ & _ & -> & _).
  - intros Hin. rewrite (check_constructed _ _ _ _ s Hinit Hin).
    destruct (run _ _ _); eauto.
  - intros Hnotin.
    apply StateMachine_init_ok_inv in Hinit as (Hnd & Hdecl & Hinit & Hterm).
    destruct s as [|c s].
    + rewrite check_nil. simpl. f_equal. apply bool_decide_ext.
      by rewrite Hinit, Hterm, elem_of_list_to_set.
    + rewrite check_unknown_state; [by rewrite Hinit|].
      rewrite Hinit. by apply (declares_not_mentioned _ edges).
Qed.

Lemma check_raises_iff_witness :
  (∃ b, fst (check "ba" (machine ab_a_)) = Ok b) ∧
  fst (check "a" (machine initial_state_apart)) = Raise (KeyError "s1").
Proof.
  split.
  - apply (check_raises_iff
             [("s1", "a", "s2"); ("s2", "b", "s3"); ("s3", "a", "s3")]
             "s1" ["s3"] (machine ab_a_) "ba" eq_refl).
    by apply (bool_decide_unpack _).
  - apply (check_raises_iff [("s2", "a", "s3")] "s1" ["s3"]
             (machine initial_state_apart) "a" eq_refl).
    by apply (bool_decide_unpack _).
Defined.

(** X8: two calls of [check] on the same instance compose: when the first
    string is read entirely, checking a second string afterwards answers
    what a single call on the concatenation answers, and leaves the same
    machine. *)
Theorem check_app (s1 s2 : string) (sm : StateMachine) :
  is_Some (run (states sm) (state sm) s1) →
  check (s1 +:+ s2) sm = check s2 (snd (check s1 sm)).
Proof.
  intros [st Hrun]. rewrite (check_run_Some s1 sm st Hrun). simpl.
  by apply check_app_run.
Qed.

Lemma check_app_witness :
  check ("ab" +:+ "a") (machine ab_a_)
    = check "a" (snd (check "ab" (machine ab_a_))).
Proof. apply check_app. by exists "s3". Defined.

(** X9: the order in which the edges and the terminal states are listed
    does not matter to [check]: two listings of the same edges are both
    refused or both constructed, and fresh machines built from them give
    the same answer, or raise the same error, on every string. *)
Theorem check_edge_order (edges edges' : list (string * string * string))
    (init_state : string) (terminals terminals' : list string) :
  edges ≡ₚ edges' → terminals ≡ₚ terminals' →
  is_ok (StateMachine_init edges init_state terminals)
    = is_ok (StateMachine_init edges' init_state terminals') ∧
  ∀ s, on (StateMachine_init edges init_state terminals) (check s)
       = on (StateMachine_init edges' init_state terminals') (check s).
Proof.
  intros Hedges Hterm.
  assert (NoDup (edge_key <$> edges) ↔ NoDup (edge_key <$> edges')) as Hnd
    by by rewrite Hedges.
  destruct (decide (NoDup (edge_key <$> edges))) as [Hnd1|Hdup1].
  - pose proof (proj1 Hnd Hnd1) as Hnd2.
    destruct (StateMachine_init_NoDup edges init_state terminals Hnd1)
      as (tbl & Hdecl & ->).
    destruct (StateMachine_init_NoDup edges' init_state terminals' Hnd2)
      as (tbl' & Hdecl' & ->).
    split; [done|]. intros s. simpl. apply check_ext; simpl.
    + done.
    + apply set_eq. intros st. by rewrite !elem_of_list_to_set, Hterm.
    + intros st. rewrite (Hdecl st), (Hdecl' st).
      assert (st ∈ mentioned edges ↔ st ∈ mentioned edges') as Hm.
      { rewrite !elem_of_mentioned. by setoid_rewrite Hedges. }
      do 2 case_decide; try tauto; by split; intros [? [=]] || eauto.
    + intros st a.
      destruct (delta tbl st a) as [dest|] eqn:Hd.
      * symmetry. apply (declares_delta_iff tbl' edges'); [done..|].
        rewrite <- Hedges. by apply (declares_delta_iff tbl edges).
      * destruct (delta tbl' st a) as [dest|] eqn:Hd'; [|done].
        apply (declares_delta_iff tbl' edges') in Hd'; [|done..].
        rewrite <- Hedges in Hd'.
        apply (declares_delta_iff tbl edges) in Hd'; [|done..]. congruence.
  - assert (¬ NoDup (edge_key <$> edges')) as Hdup2 by tauto.
    by rewrite !StateMachine_init_dup.
Qed.

Lemma check_edge_order_witness :
  on ab_a_ (check "aba")
  = on (StateMachine_init
          [("s3", "a", "s3"); ("s2", "b", "s3"); ("s1", "a", "s2")] "s1" ["s3"])
       (check "aba").
Proof.
  apply (check_edge_order
           [("s1", "a", "s2"); ("s2", "b", "s3"); ("s3", "a", "s3")]
           [("s3", "a", "s3"); ("s2", "b", "s3"); ("s1", "a", "s2")]
           "s1" ["s3"] ["s3"]); [|done].
  apply (Permutation_rev [("s1", "a", "s2"); ("s2", "b", "s3"); ("s3", "a", "s3")]).
Defined.

(** ** What the enumerator returns *)

(** X10: on a fresh machine the enumerator, when it returns, returns
    exactly the strings spelt by the sequences of [n] symbols that trace a
    path of edges from the initial state to a terminal state. *)
Theorem sample_iff_path (edges : list (string * string * string))
    (init_state : string) (terminals : list string) (sm sm' : StateMachine)
    (n : nat) (l : list string) (p : string) :
  StateMachine_init edges init_state terminals = Ok sm →
  sample n sm = (Ok l, sm') →
  p ∈ l ↔
  ∃ symbols st, length symbols = n ∧ p = spell symbols ∧
                path edges init_state symbols st ∧ st ∈ terminals.
Proof.
  intros (Hnd & Hdecl & Hinit & Hterm)%StateMachine_init_ok_inv Hsample.
  split.
  - intros Hp.
    destruct (sample2_paths n "" sm l sm' Hsample p Hp)
      as (symbols & st & Hlen & -> & Hrun & Hin).
    exists symbols, st. split_and!; [done..| |].
    + rewrite Hinit in Hrun. by apply (run_symbols_path _ edges) in Hrun.
    + rewrite Hterm in Hin. by apply elem_of_list_to_set in Hin.
  - intros (symbols & st & Hlen & -> & Hpath & Hin).
    apply (sample2_complete n "" sm l sm' Hsample symbols st Hlen).
    + rewrite Hinit. by apply (run_symbols_path _ edges).
    + rewrite Hterm. by apply elem_of_list_to_set.
Qed.

Lemma sample_iff_path_witness :
  ∃ symbols st, length symbols = 1 ∧ "ab" = spell symbols ∧
                path [("s1", "ab", "s2")] "s1" symbols st ∧ st ∈ ["s2"].
Proof.
  apply (sample_iff_path [("s1", "ab", "s2")] "s1" ["s2"]
           (machine two_character_symbol) (machine two_character_symbol)
           1 ["ab"] "ab"); [reflexivity..|left].
Defined.



(** X14: the enumerator misses nothing [check] accepts: when it returns,
    every string of length [n] that [check] accepts from the same machine
    is among the strings returned. *)
Theorem sample_complete (n : nat) (sm sm' : StateMachine) (l : list string)
    (p : string) :
  sample n sm = (Ok l, sm') →
  String.length p = n →
  fst (check p sm) = Ok true →
  p ∈ l.
Proof.
  intros Hsample Hlen (st & Hrun & Hterm)%check_true_iff_run.
  rewrite <- (spell_chars p).
  apply (sample2_complete n "" sm l sm' Hsample (chars p) st); [|by rewrite <- run_chars|done].
  by rewrite length_chars.
Qed.

Lemma sample_complete_witness :
  "x@x.xx" ∈ ["xx@x.x"; "x@x.xx"; "x@xx.x"].
Proof.
  apply (sample_complete 6 (machine test2) (machine test2)); reflexivity.
Defined.

Section enumerator_facts.
Implicit Types (sm : StateMachine) (st dest sofar : string).
Implicit Types (out : Dict.t) (n : nat).

(** One iteration of the loop of [sample2], whatever it gives. *)
Lemma sample2_branch_eq n sofar saved edge result sm :
  sample2_branch n sofar saved edge result sm =
  match advance edge sm with
  | (Ok _, sm1) =>
      match sample2 n (sofar +:+ edge) sm1 with
      | (Ok paths, sm2) => (Ok (result ++ paths), with_state sm2 saved)
      | (Raise e, sm2) => (Raise e, sm2)
      end
  | (Raise e, sm1) => (Raise e, sm1)
  end.
Proof.
  unfold sample2_branch. unfold bind at 1.
  destruct (advance edge sm) as [[u|e] sm1]; [|done].
  unfold bind at 1.
  by destruct (sample2 n (sofar +:+ edge) sm1) as [[paths|e] sm2].
Qed.

Lemma for_each_cons {A R} (x : A) (xs : list A) (body : A → R → M R)
    (result : R) sm :
  for_each (x :: xs) body result sm =
  match body x result sm with
  | (Ok r, sm') => for_each xs body r sm'
  | (Raise e, sm') => (Raise e, sm')
  end.
Proof. done. Qed.

Lemma for_each_prefixed n sofar saved :
  (∀ sofar' sm, sample2 n sofar' sm = prefixed sofar' (sample2 n "" sm)) →
  ∀ edges result sm,
    for_each edges (sample2_branch n sofar saved)
      ((λ p, sofar +:+ p) <$> result) sm =
    prefixed sofar (for_each edges (sample2_branch n "" saved) result sm).
Proof.
  intros IHn. induction edges as [|edge edges IH]; intros result sm; [done|].
  rewrite !for_each_cons, !sample2_branch_eq.
  destruct (advance edge sm) as [[u|e] sm1]; [|done].
  rewrite (IHn (sofar +:+ edge)). change ("" +:+ edge) with edge.
  rewrite (IHn edge).
  destruct (sample2 n "" sm1) as [[paths|e] sm2]; simpl; [|done].
  rewrite <- IH. f_equal. rewrite fmap_app, <- !list_fmap_compose.
  f_equal. apply list_fmap_ext. intros _ p _. simpl.
  by rewrite string_app_assoc.
Qed.

Lemma sample2_prefixed n : ∀ sofar sm,
  sample2 n sofar sm = prefixed sofar (sample2 n "" sm).
Proof.
  induction n as [|n IH]; intros sofar sm.
  - rewrite !sample2_0. simpl. case_decide; simpl; [|done].
    by rewrite string_app_nil_r.
  - rewrite !sample2_S. destruct (states sm !! state sm) as [out|]; [|done].
    by apply (for_each_prefixed n sofar (state sm) IH (Dict.keys out) []).
Qed.

(** Strings that continue different single characters after the same
    prefix differ. *)
Lemma branches_disjoint sofar k k' w w' :
  String.length k = 1 → String.length k' = 1 →
  (sofar +:+ k) +:+ w = (sofar +:+ k') +:+ w' → k = k'.
Proof.
  intros [c ->]%string_length_1 [c' ->]%string_length_1.
  rewrite !string_app_assoc. intros Heq%(inj (String.append sofar)).
  by injection Heq as ->.
Qed.

Lemma concat_branches_NoDup sofar keys pathss :
  NoDup keys → Forall (λ k, String.length k = 1) keys →
  Forall2 (λ k paths, NoDup paths ∧
             ∀ p, p ∈ paths → ∃ w, p = (sofar +:+ k) +:+ w) keys pathss →
  NoDup (concat pathss) ∧
  ∀ p, p ∈ concat pathss → ∃ k w, k ∈ keys ∧ p = (sofar +:+ k) +:+ w.
Proof.
  intros Hnd Hlen Hall. induction Hall as [|k paths keys pathss [Hp Hform] _ IH]; simpl.
  - split; [constructor | by intros p ?%elem_of_nil].
  - apply NoDup_cons in Hnd as [Hk Hnd]. apply Forall_cons in Hlen as [Hk1 Hlen].
    destruct (IH Hnd Hlen) as [IHnd IHform]. split.
    + apply NoDup_app. split_and!; [done| |done].
      intros p Hin1 Hin2. destruct (Hform p Hin1) as [w ->].
      destruct (IHform _ Hin2) as (k' & w' & Hk' & Heq).
      apply branches_disjoint in Heq as ->; [done..|].
      rewrite Forall_forall in Hlen. by apply Hlen.
    + intros p [Hin|Hin]%elem_of_app.
      * destruct (Hform p Hin) as [w ->]. exists k, w. split; [left|done].
      * destruct (IHform p Hin) as (k' & w' & Hk' & ->).
        exists k', w'. split; [by right|done].
Qed.

(** Tables whose dictionaries have pairwise distinct keys, each a single
    character: no string is enumerated twice. *)
Lemma sample2_NoDup n : ∀ sofar sm l sm',
  (∀ st out, states sm !! st = Some out →
     NoDup (Dict.keys out) ∧ Forall (λ k, String.length k = 1) (Dict.keys out)) →
  sample2 n sofar sm = (Ok l, sm') → NoDup l.
Proof.
  induction n as [|n IH]; intros sofar sm l sm' Htbl.
  - rewrite sample2_0. intros [= <- _]. case_decide; [apply NoDup_singleton | constructor].
  - intros (out & pathss & Hout & Hall & ->)%sample2_S_ok_inv.
    destruct (Htbl _ _ Hout) as [Hnd Hlen].
    apply (concat_branches_NoDup sofar (Dict.keys out)); [done..|].
    eapply Forall2_impl; [exact Hall|]. simpl.
    intros edge paths (dest & _ & Hrec). split.
    + by apply (IH _ (with_state sm dest) _ _ Htbl Hrec).
    + intros p Hp.
      destruct (sample2_paths n _ _ _ _ Hrec p Hp) as (symbols & _ & _ & -> & _).
      eauto.
Qed.

End enumerator_facts.

(** X12: the prefix [sofar] that [sample2] accumulates only ever gets
    prepended: [sample2] with a prefix returns, for every machine, what
    [sample] returns with the prefix put before each string, raises what
    [sample] raises, and leaves the same machine. *)
Theorem sample2_sofar (n : nat) (sofar : string) (sm : StateMachine) :
  sample2 n sofar sm =
  match sample n sm with
  | (Ok l, sm') => (Ok ((λ p, sofar +:+ p) <$> l), sm')
  | (Raise e, sm') => (Raise e, sm')
  end.
Proof. apply sample2_prefixed. Qed.

(** X13: on a machine constructed from edges whose symbols are single
    characters, the enumerator returns no string twice. *)
Theorem sample_NoDup (edges : list (string * string * string))
    (init_state : string) (terminals : list string) (sm sm' : StateMachine)
    (n : nat) (l : list string) :
  StateMachine_init edges init_state terminals = Ok sm →
  Forall (λ e, String.length e.1.2 = 1) edges →
  sample n sm = (Ok l, sm') →
  NoDup l.
Proof.
  intros (Hnd & Hdecl & _ & _)%StateMachine_init_ok_inv Hchars.
  apply sample2_NoDup. intros st out Hout.
  pose proof (Hdecl st) as Hst. rewrite Hout in Hst.
  case_decide; [|done]. injection Hst as ->.
  split; [by apply keys_out_of_NoDup|].
  apply Forall_forall. intros k Hk%elem_of_keys_out_of.
  apply list_elem_of_fmap in Hk as ([[src sym] dst] & [= -> ->] & Hin).
  rewrite Forall_forall in Hchars. by apply (Hchars _ Hin).
Qed.

Lemma sample_NoDup_witness :
  NoDup ["xx@x.x"; "x@x.xx"; "x@xx.x"].
Proof.
  apply (sample_NoDup
           [("s1", "x", "s2"); ("s2", "x", "s2"); ("s2", "@", "s3");
            ("s3", "x", "s4"); ("s4", ".", "s5"); ("s4", "x", "s4");
            ("s5", "x", "s6"); ("s6", "x", "s6"); ("s6", ".", "s5")]
           "s1" ["s6"] (machine test2) (machine test2) 6).
  - reflexivity.
  - by apply (bool_decide_unpack _).
  - reflexivity.
Defined.

(** ** The first enumerator *)

Section first_enumerator.
Implicit Types (sm : StateMachine) (path : string) (works : list string).

Lemma recur_0 path sm works :
  recur 0 path (sm, works) =
  (Ok tt, (sm, if decide (state sm ∈ terminal_states sm)
               then (works ++ [path])%list else works)).
Proof.
  simpl. unfold bindW, on_sm, is_terminal. simpl.
  unfold bool_decide. by destruct (decide_rel _ _ _).
Qed.

Lemma recur_S n path sm works :
  recur (S n) path (sm, works) =
  match states sm !! state sm with
  | None => (Raise (KeyError (state sm)), (sm, works))
  | Some out => for_edges (Dict.keys out) (recur_branch n path) (sm, works)
  end.
Proof.
  simpl. unfold bindW at 1. unfold on_sm. simpl. rewrite out_edges_eq.
  by destruct (states sm !! state sm).
Qed.

(** One iteration of the loop of [recur]: the copy is advanced and passed
    on, the machine itself stays. *)
Lemma recur_branch_eq n path edge sm works :
  recur_branch n path edge (sm, works) =
  match advance edge sm with
  | (Ok _, smCopy) =>
      match recur n (path +:+ edge) (smCopy, works) with
      | (r, (_, works')) => (r, (sm, works'))
      end
  | (Raise e, _) => (Raise e, (sm, works))
  end.
Proof.
  unfold recur_branch, bindW, copy, with_object, on_sm. simpl.
  destruct (advance edge sm) as [[u|e] smCopy]; [|done].
  by destruct (recur n (path +:+ edge) (smCopy, works)) as [r [sm' works']].
Qed.

Lemma for_edges_cons edge edges (body : string → MW unit) st :
  for_edges (edge :: edges) body st =
  match body edge st with
  | (Ok _, st') => for_edges edges body st'
  | (Raise e, st') => (Raise e, st')
  end.
Proof. done. Qed.

Lemma for_edges_follows n path sm :
  recur_follows n →
  ∀ edges result works,
    match for_each edges (sample2_branch n path (state sm)) result sm with
    | (Ok l, _) =>
        ∃ l', l = (result ++ l')%list ∧
              for_edges edges (recur_branch n path) (sm, works)
                = (Ok tt, (sm, (works ++ l')%list))
    | (Raise e, _) =>
        ∃ added, for_edges edges (recur_branch n path) (sm, works)
                   = (Raise e, (sm, (works ++ added)%list))
    end.
Proof.
  intros IHn. induction edges as [|edge edges IH]; intros result works.
  - simpl. exists []. by rewrite !app_nil_r.
  - rewrite for_each_cons, for_edges_cons, sample2_branch_eq, recur_branch_eq.
    destruct (advance edge sm) as [[u|e] sm1] eqn:Hadv.
    + apply advance_ok_inv in Hadv as (dest & _ & ->).
      pose proof (IHn (path +:+ edge) (with_state sm dest) works) as Hrec.
      destruct (sample2 n (path +:+ edge) (with_state sm dest))
        as [[paths|e] sm2] eqn:Hsample.
      * apply sample2_restores in Hsample as ->.
        rewrite Hrec, with_state_twice, with_state_id.
        pose proof (IH (result ++ paths)%list (works ++ paths)%list) as Hrest.
        destruct (for_each edges _ _ sm) as [[l|e] sm3].
        -- destruct Hrest as (l' & -> & ->). exists (paths ++ l')%list.
           by rewrite !app_assoc.
        -- destruct Hrest as (added & ->). exists (paths ++ added)%list.
           by rewrite !app_assoc.
      * destruct Hrec as (added & ->). by exists added.
    + exists []. by rewrite app_nil_r.
Qed.

Lemma recur_follows_all n : recur_follows n.
Proof.
  induction n as [|n IH]; intros path sm works.
  - rewrite sample2_0, recur_0. by case_decide; rewrite ?app_nil_r.
  - rewrite sample2_S, recur_S.
    destruct (states sm !! state sm) as [out|].
    + pose proof (for_edges_follows n path sm IH (Dict.keys out) [] works) as H.
      destruct (for_each _ _ _ sm) as [[l|e] sm']; [|done].
      by destruct H as (l' & -> & ->).
    + exists []. by rewrite app_nil_r.
Qed.

End first_enumerator.

(** X15: [recur] never touches the machine it is given, since it advances
    copies of it, and it only appends to [works]: what the list held before
    the call is still there, in place, whether the call returns or
    raises. *)
Theorem recur_frame (n : nat) (path : string) (sm : StateMachine)
    (works : list string) :
  ∃ added, snd (recur n path (sm, works)) = (sm, (works ++ added)%list).
Proof.
  pose proof (recur_follows_all n path sm works) as H.
  destruct (sample2 n path sm) as [[l|e] sm'].
  - exists l. by rewrite H.
  - destruct H as (added & ->). by exists added.
Qed.

(** X16: the two enumerators of the notebook agree: [try_sample], which
    explores copies of the machine, returns the list [sample] returns, in
    the same order, or raises the error [sample] raises, on every machine
    and for every length; and it leaves the machine untouched. *)
Theorem try_sample_sample (n : nat) (sm : StateMachine) :
  try_sample n sm = (fst (sample n sm), sm).
Proof.
  unfold try_sample, sample.
  pose proof (recur_follows_all n "" sm []) as H.
  destruct (sample2 n "" sm) as [[l|e] sm'].
  - by rewrite H.
  - by destruct H as (added & ->).
Qed.

(** ** The test cells of the notebook *)

(** X17: the assertions of the notebook on [check] hold: those of test
    suite 1 on [test1], those on the address machine [test2] and those on
    the phone-number machine [test3], each on a fresh machine. *)
Theorem check_test_suites :
  (on test1 (check "hello") = Ok true ∧
   on test1 (check "hey") = Ok true ∧
   on test1 (check "hi") = Ok true ∧
   on test1 (check "hihi") = Ok true ∧
   on test1 (check "hihihi") = Ok true ∧
   on test1 (check "greetings") = Ok false ∧
   on test1 (check "hel") = Ok false ∧
   on test1 (check "helloy") = Ok false ∧
   on test1 (check "hih") = Ok false ∧
   on test1 (check "heyhey") = Ok false) ∧
  (on test2 (check "x@x.x") = Ok true ∧
   on test2 (check "xx@xxxx.xxxxxxx") = Ok true ∧
   on test2 (check "x@xxxx.xx") = Ok true ∧
   on test2 (check "x@x.xx.x") = Ok true ∧
   on test2 (check "xxx@xx.xx.xx.xxx") = Ok true ∧
   on test2 (check "x") = Ok false ∧
   on test2 (check "x@.") = Ok false ∧
   on test2 (check "x@x.") = Ok false ∧
   on test2 (check "@x.x") = Ok false ∧
   on test2 (check "x@.xx") = Ok false ∧
   on test2 (check "x.x@x") = Ok false ∧
   on test2 (check "x@x..x") = Ok false ∧
   on test2 (check "x@x@x.x") = Ok false) ∧
  (on test3 (check "123-456-7890") = Ok true ∧
   on test3 (check "000-892-9829") = Ok true ∧
   on test3 (check "0008887463") = Ok false ∧
   on test3 (check "a93-489-9833") = Ok false ∧
   on test3 (check "233-434-23432") = Ok false).
Proof. vm_compute. by split_and!. Qed.

(** X18: the assertions of the notebook on [sample] hold: on fresh
    address machines it returns no string of length 0 to 4, one of length
    5, three of length 6, seven of length 7 and fourteen of length 8. *)
Theorem sample_test_suite :
  result_map length (on test2 (sample 0)) = Ok 0 ∧
  result_map length (on test2 (sample 1)) = Ok 0 ∧
  result_map length (on test2 (sample 2)) = Ok 0 ∧
  result_map length (on test2 (sample 3)) = Ok 0 ∧
  result_map length (on test2 (sample 4)) = Ok 0 ∧
  result_map length (on test2 (sample 5)) = Ok 1 ∧
  result_map length (on test2 (sample 6)) = Ok 3 ∧
  result_map length (on test2 (sample 7)) = Ok 7 ∧
  result_map length (on test2 (sample 8)) = Ok 14.
Proof. vm_compute. by split_and!. Qed.

(** ** The phone-number machine *)

Section chains.
Implicit Types (tbl : gmap string Dict.t) (st : string).
Implicit Types (links : list (list string * string)) (symbols : list string).

Lemma chain_run_matches tbl links : ∀ st symbols,
  chain tbl st links →
  Forall2 (λ link a, a ∈ link.1) links symbols →
  run_symbols tbl st symbols = Some (chain_end st links).
Proof.
  induction links as [|[class next] links IH]; intros st symbols Hchain Hall.
  - by apply Forall2_nil_inv_l in Hall as ->.
  - apply Forall2_cons_inv_l in Hall as (a & symbols' & Ha & Hall & ->).
    destruct Hchain as [Hstep Hchain]. cbn [run_symbols chain_end].
    rewrite Hstep, decide_True by done. by apply IH.
Qed.

Lemma chain_run_inv tbl links : ∀ st symbols st',
  chain tbl st links →
  run_symbols tbl st symbols = Some st' →
  st' ∉ chain_inner st links →
  Forall2 (λ link a, a ∈ link.1) links symbols.
Proof.
  induction links as [|[class next] links IH]; intros st symbols st' Hchain.
  - destruct symbols as [|a symbols]; [constructor|].
    cbn [run_symbols]. by rewrite (Hchain a).
  - destruct Hchain as [Hstep Hchain]. cbn [chain_inner].
    destruct symbols as [|a symbols]; cbn [run_symbols].
    + intros [= <-] Hnotin. exfalso. apply Hnotin. left.
    + rewrite Hstep. case_decide as Ha; [|done].
      intros Hrun Hnotin. constructor; [done|].
      apply (IH next symbols st'); [done..|].
      intros Hin. apply Hnotin. by right.
Qed.

End chains.

Lemma Dict_get_const (keys : list string) (dest a : string) :
  Dict.get a ((λ k, (k, dest)) <$> keys) =
  if decide (a ∈ keys) then Some dest else None.
Proof.
  induction keys as [|k keys IH]; [done|].
  rewrite fmap_cons. cbn [Dict.get].
  destruct (decide (a = k)) as [->|Hne].
  - rewrite decide_True; [done | left].
  - rewrite IH. apply decide_ext. rewrite elem_of_cons.
    split; [by right | by intros [?|?]].
Qed.

Lemma test3_ok : test3 = Ok (machine test3).
Proof. by vm_compute. Qed.

Ltac compute_out_edges :=
  unfold delta;
  match goal with
  | |- context [match ?o with Some _ => _ | None => _ end] =>
      let v := eval vm_compute in o in
      replace o with v by (vm_compute; reflexivity)
  end.

(** The transitions of [test3] form the chain [phone_links]. *)
Lemma test3_chain : chain (states (machine test3)) "s1" phone_links.
Proof.
  unfold phone_links. cbn [chain].
  split_and!; intros a; compute_out_edges;
    first [ exact (Dict_get_const digits _ a)
          | exact (Dict_get_const ["-"] _ a)
          | reflexivity ].
Qed.

Lemma test3_state : state (machine test3) = "s1".
Proof. by vm_compute. Qed.

Lemma test3_terminal (st : string) :
  st ∈ terminal_states (machine test3) ↔ st = "s13".
Proof.
  assert (terminal_states (machine test3) = list_to_set ["s13"]) as ->
    by by vm_compute.
  by rewrite elem_of_list_to_set, list_elem_of_singleton.
Qed.

(** X19: the machine [test3] does what its comment says: [check] accepts
    from a fresh [test3] exactly the strings made of three digits, a
    hyphen, three digits, a hyphen and four digits. *)
Theorem check_test3_phone_numbers (s : string) :
  on test3 (check s) = Ok true ↔
  Forall2 (λ class a, a ∈ class) phone_pattern (chars s).
Proof.
  rewrite test3_ok. cbn [on]. rewrite check_true_iff_run, run_chars, test3_state.
  assert (phone_pattern = fst <$> phone_links) as -> by reflexivity.
  rewrite Forall2_fmap_l. split.
  - intros (st & Hrun & ->%test3_terminal).
    eapply chain_run_inv; [apply test3_chain | exact Hrun |].
    by apply (bool_decide_unpack _).
  - intros Hall. exists "s13". split; [|by apply test3_terminal].
    exact (chain_run_matches _ _ _ _ test3_chain Hall).
Qed.

Lemma check_test3_phone_numbers_witness :
  on test3 (check "555-010-9999") = Ok true.
Proof.
  apply check_test3_phone_numbers.
  apply (bool_decide_unpack _). vm_compute. exact I.
Defined.

(** ** The greetings machine *)

Lemma test1_ok : test1 = Ok (machine test1).
Proof. by vm_compute. Qed.

Lemma test1_state : state (machine test1) = "s1".
Proof. by vm_compute. Qed.

Lemma test1_terminal (st : string) :
  st ∈ terminal_states (machine test1) ↔ st = "s4" ∨ st = "s7" ∨ st = "s8".
Proof.
  assert (terminal_states (machine test1) = list_to_set ["s4"; "s7"; "s8"]) as ->
    by by vm_compute.
  rewrite elem_of_list_to_set, !elem_of_cons, elem_of_nil. tauto.
Qed.

(** The transitions of [test1], state by state. *)
Lemma test1_delta (a : string) :
  let tbl := states (machine test1) in
  delta tbl "s1" a = (if decide (a = "h") then Some "s2" else None) ∧
  delta tbl "s2" a = (if decide (a = "e") then Some "s3" else (if decide (a = "i") then Some "s8" else None)) ∧
  delta tbl "s3" a = (if decide (a = "y") then Some "s4" else (if decide (a = "l") then Some "s5" else None)) ∧
  delta tbl "s4" a = None ∧
  delta tbl "s5" a = (if decide (a = "l") then Some "s6" else None) ∧
  delta tbl "s6" a = (if decide (a = "o") then Some "s7" else None) ∧
  delta tbl "s7" a = None ∧
  delta tbl "s8" a = (if decide (a = "h") then Some "s9" else None) ∧
  delta tbl "s9" a = (if decide (a = "i") then Some "s8" else None).
Proof.
  intros tbl. subst tbl. split_and!; compute_out_edges; reflexivity.
Qed.

Lemma accepted_from_nil (sm : StateMachine) (st : string) :
  accepted_from sm st "" ↔ st ∈ terminal_states sm.
Proof.
  unfold accepted_from. cbn [run]. split.
  - by intros (st' & [= <-] & Hterm).
  - intros Hterm. by exists st.
Qed.

Lemma accepted_from_cons (sm : StateMachine) (st : string) c (s : string) :
  accepted_from sm st (String c s) ↔
  ∃ dest, delta (states sm) st (String c EmptyString) = Some dest ∧
          accepted_from sm dest s.
Proof.
  unfold accepted_from. cbn [run].
  destruct (delta (states sm) st _) as [dest|].
  - split; [intros H; by exists dest | by intros (dest' & [= <-] & H)].
  - split; [by intros (? & ? & ?) | by intros (? & ? & ?)].
Qed.

Section greetings.
Local Abbreviation T := (machine test1).

Ltac first_char :=
  rewrite accepted_from_cons;
  match goal with
  | |- context [delta _ ?st ?a] =>
      let H := fresh "Hdelta" in
      pose proof (test1_delta a) as H; cbv zeta in H; destruct_and! H;
      match goal with
      | Heq : delta _ st a = _ |- _ => rewrite Heq
      end;
      repeat match goal with
             | Heq : delta _ _ _ = _ |- _ => clear Heq
             end
  end.

Lemma test1_from_s4 s : accepted_from T "s4" s ↔ s = "".
Proof.
  destruct s as [|c s].
  - rewrite accepted_from_nil, test1_terminal. split; [done | by left].
  - first_char. split; [by intros (? & ? & ?) | done].
Qed.

Lemma test1_from_s7 s : accepted_from T "s7" s ↔ s = "".
Proof.
  destruct s as [|c s].
  - rewrite accepted_from_nil, test1_terminal. split; [done | by right; left].
  - first_char. split; [by intros (? & ? & ?) | done].
Qed.

Lemma test1_from_s6 s : accepted_from T "s6" s ↔ s = "o".
Proof.
  destruct s as [|c s].
  - rewrite accepted_from_nil, test1_terminal. split; [by intros [?|[?|?]] | done].
  - first_char. split.
    + intros (dest & Hd & Hacc). case_decide as Hc; [|done].
      injection Hc as ->. injection Hd as <-.
      by apply test1_from_s7 in Hacc as ->.
    + intros [= -> ->]. exists "s7". split; [done | by apply test1_from_s7].
Qed.

Lemma test1_from_s5 s : accepted_from T "s5" s ↔ s = "lo".
Proof.
  destruct s as [|c s].
  - rewrite accepted_from_nil, test1_terminal. split; [by intros [?|[?|?]] | done].
  - first_char. split.
    + intros (dest & Hd & Hacc). case_decide as Hc; [|done].
      injection Hc as ->. injection Hd as <-.
      by apply test1_from_s6 in Hacc as ->.
    + intros [= -> ->]. exists "s6". split; [done | by apply test1_from_s6].
Qed.

Lemma test1_from_s3 s : accepted_from T "s3" s ↔ s = "y" ∨ s = "llo".
Proof.
  destruct s as [|c s].
  - rewrite accepted_from_nil, test1_terminal.
    split; [by intros [?|[?|?]] | by intros [?|?]].
  - first_char. split.
    + intros (dest & Hd & Hacc). repeat case_decide; try done.
      * match goal with Hc : String c _ = _ |- _ => injection Hc as -> end.
        injection Hd as <-. apply test1_from_s4 in Hacc as ->. by left.
      * match goal with Hc : String c _ = "l" |- _ => injection Hc as -> end.
        injection Hd as <-. apply test1_from_s5 in Hacc as ->. by right.
    + intros [[= -> ->]|[= -> ->]].
      * exists "s4". split; [done | by apply test1_from_s4].
      * exists "s5". split; [done | by apply test1_from_s5].
Qed.

(** The loop between s8 and s9. *)
Lemma test1_from_s8_s9 s :
  (accepted_from T "s8" s ↔ ∃ k, s = his k) ∧
  (accepted_from T "s9" s ↔ ∃ k, s = "i" +:+ his k).
Proof.
  induction s as [|c s [IH8 IH9]]; split.
  - rewrite accepted_from_nil, test1_terminal.
    split; [by exists 0 | by right; right].
  - rewrite accepted_from_nil, test1_terminal.
    split; [by intros [?|[?|?]] | by intros [k ?]].
  - first_char. split.
    + intros (dest & Hd & Hacc). case_decide as Hc; [|done].
      injection Hc as ->. injection Hd as <-.
      apply IH9 in Hacc as [k ->]. by exists (S k).
    + intros [[|k] Hk]; [done|]. injection Hk as -> ->.
      exists "s9". split; [done|]. apply IH9. by exists k.
  - first_char. split.
    + intros (dest & Hd & Hacc). case_decide as Hc; [|done].
      injection Hc as ->. injection Hd as <-.
      apply IH8 in Hacc as [k ->]. by exists k.
    + intros [k Hk]. injection Hk as -> ->.
      exists "s8". split; [done|]. apply IH8. by exists k.
Qed.

Lemma test1_from_s2 s :
  accepted_from T "s2" s ↔ s = "ey" ∨ s = "ello" ∨ ∃ k, s = "i" +:+ his k.
Proof.
  destruct s as [|c s].
  - rewrite accepted_from_nil, test1_terminal.
    split; [by intros [?|[?|?]] | by intros [?|[?|[k ?]]]].
  - first_char. split.
    + intros (dest & Hd & Hacc). repeat case_decide; try done.
      * match goal with Hc : String c _ = _ |- _ => injection Hc as -> end.
        injection Hd as <-. apply test1_from_s3 in Hacc as [-> | ->]; auto.
      * match goal with Hc : String c _ = "i" |- _ => injection Hc as -> end.
        injection Hd as <-. apply test1_from_s8_s9 in Hacc as [k ->].
        right. right. by exists k.
    + intros [[= -> ->]|[[= -> ->]|[k Hk]]].
      * exists "s3". split; [done|]. apply test1_from_s3. by left.
      * exists "s3". split; [done|]. apply test1_from_s3. by right.
      * injection Hk as -> ->. exists "s8". split; [done|].
        apply test1_from_s8_s9. by exists k.
Qed.

Lemma test1_from_s1 s :
  accepted_from T "s1" s ↔ s = "hey" ∨ s = "hello" ∨ ∃ k, s = "hi" +:+ his k.
Proof.
  destruct s as [|c s].
  - rewrite accepted_from_nil, test1_terminal.
    split; [by intros [?|[?|?]] | by intros [?|[?|[k ?]]]].
  - first_char. split.
    + intros (dest & Hd & Hacc). case_decide as Hc; [|done].
      injection Hc as ->. injection Hd as <-.
      apply test1_from_s2 in Hacc as [-> | [-> | [k ->]]]; auto.
      right. right. by exists k.
    + intros [[= -> ->]|[[= -> ->]|[k Hk]]].
      * exists "s2". split; [done|]. apply test1_from_s2. by left.
      * exists "s2". split; [done|]. apply test1_from_s2. by right; left.
      * injection Hk as -> ->. exists "s2". split; [done|].
        apply test1_from_s2. right. right. by exists k.
Qed.

End greetings.

(** X20: the machine [test1] does what its comment says: [check] accepts
    from a fresh [test1] exactly "hello", "hey", and "hi" followed by any
    number of further "hi". *)
Theorem check_test1_greetings (s : string) :
  on test1 (check s) = Ok true ↔
  s = "hey" ∨ s = "hello" ∨ ∃ k, s = "hi" +:+ his k.
Proof.
  rewrite test1_ok. cbn [on]. rewrite check_true_iff_run, test1_state.
  apply test1_from_s1.
Qed.

Lemma check_test1_greetings_witness :
  on test1 (check "hihihihi") = Ok true.
Proof.
  apply check_test1_greetings. right. right. by exists 3.
Defined.
